(** * ScummVM fragments: Ultima8 audio channel and Toonstruck movie driver

    A shallow embedding of
      - engines/ultima/ultima8/audio/audio_channel.h  (class AudioChannel)
      - engines/toon/movie.cpp  (ToonstruckSmackerDecoder, Movie)
    together with the properties the specification states about them.

    Conventions.  C++ [int], [int16], [int32], [uint16], [uint32] values are
    integers of [Z]; a [byte] is a [Byte.byte]; an index into a byte buffer or
    into the 256-entry palette is a [nat].  C's [/] on ints is [Z.quot]
    (truncation towards zero) and [&] is [Z.land].  Host facilities that the
    two files only call (mixer, streams, base Smacker decoder, display) are
    either parameters of a Section or appear as recorded calls. *)

From Stdlib Require Import ZArith Lia List Bool String.
From Stdlib Require Init.Byte Strings.Byte.
From stdpp Require Import base list gmap sets.

Abbreviation byte := Init.Byte.byte.

(* ===================================================================== *)
(** ** C integer arithmetic *)
(* ===================================================================== *)

Module CInt.
Local Open Scope Z_scope.

(** The value a 32-bit two's complement [int] holds for the mathematical
    integer [z]. *)
Definition sint32 (z : Z) : Z := (z + 2 ^ 31) mod 2 ^ 32 - 2 ^ 31.

(** The value a [uint32] holds for [z]. *)
Definition uint32 (z : Z) : Z := z mod 2 ^ 32.

Definition int_range (z : Z) : Prop := - 2 ^ 31 <= z < 2 ^ 31.
Definition int16_range (z : Z) : Prop := - 2 ^ 15 <= z < 2 ^ 15.
Definition uint16_range (z : Z) : Prop := 0 <= z < 2 ^ 16.

Definition int_add (a b : Z) : Z := sint32 (a + b).
Definition int_sub (a b : Z) : Z := sint32 (a - b).
Definition int_mul (a b : Z) : Z := sint32 (a * b).
(** [a / b] on ints: truncating division. *)
Definition int_div (a b : Z) : Z := sint32 (Z.quot a b).

Lemma sint32_id z : int_range z -> sint32 z = z.
Proof.
  unfold int_range, sint32. intros H.
  rewrite Z.mod_small; lia.
Qed.

Lemma uint32_id z : 0 <= z < 2 ^ 32 -> uint32 z = z.
Proof. unfold uint32. intros H. apply Z.mod_small. lia. Qed.

Lemma quot2_range z : int_range z -> int_range (Z.quot z 2).
Proof.
  unfold int_range. intros H.
  destruct (Z_lt_le_dec z 0) as [Hn | Hp].
  - pose proof (Z.quot_opp_l z 2 ltac:(lia)) as Ho.
    assert (Hq : 0 <= Z.quot (- z) 2 <= - z).
    { rewrite Z.quot_div_nonneg by lia. split.
      - apply Z.div_pos; lia.
      - apply Z.div_le_upper_bound; lia. }
    lia.
  - rewrite Z.quot_div_nonneg by lia.
    assert (0 <= z / 2 <= z).
    { split; [apply Z.div_pos; lia | apply Z.div_le_upper_bound; lia]. }
    lia.
Qed.

Lemma int_div2 z : int_range z -> int_div z 2 = Z.quot z 2.
Proof. intros H. unfold int_div. apply sint32_id, quot2_range, H. Qed.

End CInt.

(* ===================================================================== *)
(** ** Ultima8: AudioChannel *)
(* ===================================================================== *)

Module AudioChannel.
Import CInt.
Local Open Scope Z_scope.

(** [Audio::SoundHandle] is an opaque host value. *)
Definition SoundHandle := nat.

(** The host mixer ([Audio::Mixer], behind [_mixer]) is shared with the rest
    of the program; what the channel does to it is the sequence of calls it
    receives, oldest first, each with the values its parameters hold. *)
Inductive MixerCall : Type :=
| setChannelVolume (handle : SoundHandle) (volume : Z)
| setChannelBalance (handle : SoundHandle) (balance : Z).

Definition Mixer := list MixerCall.

(** Modelled from the spec: the mixer is host code whose declaration
    (audio/mixer.h, included by the header) is not under src/.  Its
    [setChannelVolume] takes a [byte volume] and its [setChannelBalance] an
    [int8 balance], so the [int] argument of a call is converted to that
    type at the call site: [to_byte] and [to_int8] are the values the
    parameters hold. *)
Definition to_byte (z : Z) : Z := z mod 2 ^ 8.
Definition to_int8 (z : Z) : Z := (z + 2 ^ 7) mod 2 ^ 8 - 2 ^ 7.

Record AudioChannel : Type := mkAudioChannel {
  _soundHandle : SoundHandle;
  _loop : Z;
  _sample : option nat;
  _lVol : Z;
  _rVol : Z;
  _pitchShift : Z;
  _priority : Z;
  _paused : bool
}.

(** A method runs on the channel object and the mixer it points to. *)
Definition Method (A : Type) : Type := AudioChannel -> Mixer -> A * AudioChannel * Mixer.

#[local] Instance method_ret : MRet Method :=
  fun A (a : A) c mx => (a, c, mx).
#[local] Instance method_bind : MBind Method :=
  fun A B (k : A -> Method B) (m : Method A) c mx =>
    let '(a, c1, mx1) := m c mx in k a c1 mx1.

Definition this : Method AudioChannel := fun c mx => (c, c, mx).
Definition assign (f : AudioChannel -> AudioChannel) : Method unit :=
  fun c mx => (tt, f c, mx).
Definition mixer_call (e : MixerCall) : Method unit :=
  fun c mx => (tt, c, mx ++ [e]).

Definition set_lVol (v : Z) (c : AudioChannel) : AudioChannel :=
  mkAudioChannel (_soundHandle c) (_loop c) (_sample c) v (_rVol c)
                 (_pitchShift c) (_priority c) (_paused c).
Definition set_rVol (v : Z) (c : AudioChannel) : AudioChannel :=
  mkAudioChannel (_soundHandle c) (_loop c) (_sample c) (_lVol c) v
                 (_pitchShift c) (_priority c) (_paused c).
Definition set_priority (v : Z) (c : AudioChannel) : AudioChannel :=
  mkAudioChannel (_soundHandle c) (_loop c) (_sample c) (_lVol c) (_rVol c)
                 (_pitchShift c) v (_paused c).

(** [void setVolume(int lvol, int rvol)] *)
Definition setVolume (lvol rvol : Z) : Method unit :=
  assign (set_lVol lvol) ;;
  assign (set_rVol rvol) ;;
  c ← this;
  mixer_call (setChannelVolume (_soundHandle c)
                (to_byte (int_div (int_add rvol lvol) 2))) ;;
  mixer_call (setChannelBalance (_soundHandle c)
                (to_int8 (int_div (int_sub rvol lvol) 2))).

(** [void getVolume(int &lvol, int &rvol) const] : the two out-parameters
    are the returned pair. *)
Definition getVolume : Method (Z * Z) :=
  c ← this;
  mret (_lVol c, _rVol c).

(** [void setPriority(int priority)] *)
Definition setPriority (priority : Z) : Method unit :=
  assign (set_priority priority).

(** [int getPriority() const] *)
Definition getPriority : Method Z :=
  c ← this;
  mret (_priority c).

(** [bool isPaused() const] *)
Definition isPaused : Method bool :=
  c ← this;
  mret (_paused c).

Definition result {A} (r : A * AudioChannel * Mixer) : A := fst (fst r).
Definition channel {A} (r : A * AudioChannel * Mixer) : AudioChannel := snd (fst r).
Definition mixer {A} (r : A * AudioChannel * Mixer) : Mixer := snd r.

(** *** Properties *)

Example setVolume_run :
  mixer (setVolume 256 128 (mkAudioChannel 7%nat 0 None 0 0 0 0 false) []) =
  [setChannelVolume 7%nat 192; setChannelBalance 7%nat (-64)].
Proof. reflexivity. Qed.

(** Truncation, not flooring: (0 - 1) / 2 is 0 in C. *)
Example setVolume_truncates :
  mixer (setVolume 1 0 (mkAudioChannel 7%nat 0 None 0 0 0 0 false) []) =
  [setChannelVolume 7%nat 0; setChannelBalance 7%nat 0].
Proof. reflexivity. Qed.

Lemma setVolume_channel lvol rvol c mx :
  channel (setVolume lvol rvol c mx) = set_rVol rvol (set_lVol lvol c).
Proof. reflexivity. Qed.

(** C4.  The channel caches its volume, priority and pause scalars:
    [getVolume] after [setVolume l r] returns [(l, r)], [getPriority] after
    [setPriority p] returns [p], [isPaused] returns the [_paused] field; and
    the three getters neither read nor change the mixer: whatever the mixer
    state [mx'], they return the cached fields and leave channel and mixer
    as they were. *)
Theorem getters_return_cached_scalars (c : AudioChannel) (mx : Mixer) (l r p : Z) :
  (let s := setVolume l r c mx in
   result (getVolume (channel s) (mixer s)) = (l, r)) /\
  (let s := setPriority p c mx in
   result (getPriority (channel s) (mixer s)) = p) /\
  result (isPaused c mx) = _paused c /\
  (forall mx' : Mixer,
     getVolume c mx' = ((_lVol c, _rVol c), c, mx') /\
     getPriority c mx' = (_priority c, c, mx') /\
     isPaused c mx' = (_paused c, c, mx')).
Proof.
  repeat split.
Qed.

Lemma to_byte_id z : 0 <= z <= 255 -> to_byte z = z.
Proof. unfold to_byte. intros H. apply Z.mod_small. lia. Qed.

Lemma to_int8_id z : -128 <= z <= 127 -> to_int8 z = z.
Proof. unfold to_int8. intros H. rewrite Z.mod_small; lia. Qed.

(** What [setVolume] leaves: the two fields set and two calls added. *)
Lemma setVolume_eq lvol rvol c mx :
  setVolume lvol rvol c mx =
  (tt, set_rVol rvol (set_lVol lvol c),
   mx ++ [setChannelVolume (_soundHandle c) (to_byte (int_div (int_add rvol lvol) 2));
          setChannelBalance (_soundHandle c) (to_int8 (int_div (int_sub rvol lvol) 2))]).
Proof.
  unfold setVolume, mbind, method_bind, assign, this, mixer_call. simpl.
  rewrite <- app_assoc. reflexivity.
Qed.




(** Volumes in the documented range 0..256 never overflow. *)
Lemma documented_volumes_fit (lvol rvol : Z) :
  0 <= lvol <= 256 -> 0 <= rvol <= 256 ->
  int_range (rvol + lvol) /\ int_range (rvol - lvol).
Proof. unfold int_range. lia. Qed.

(** *** Further properties of the channel *)

(** Run [m2] on the channel and mixer that [m1] leaves. *)
Definition and_then {A B} (m1 : Method A) (m2 : Method B) : Method B :=
  fun c mx => let r := m1 c mx in m2 (channel r) (mixer r).

(** X1.  Setting the priority and setting the volume do not interfere: in
    either order they leave the same channel and the same mixer calls, the
    priority change adds no mixer call, and afterwards both getters return
    what was set while the pause flag is the old one. *)
Theorem setVolume_setPriority_commute (c : AudioChannel) (mx : Mixer) (l r p : Z) :
  and_then (setVolume l r) (setPriority p) c mx =
  and_then (setPriority p) (setVolume l r) c mx /\
  mixer (setPriority p c mx) = mx /\
  (let s := and_then (setVolume l r) (setPriority p) c mx in
   result (getVolume (channel s) (mixer s)) = (l, r) /\
   result (getPriority (channel s) (mixer s)) = p /\
   result (isPaused (channel s) (mixer s)) = _paused c /\
   _soundHandle (channel s) = _soundHandle c).
Proof.
  unfold and_then. rewrite !setVolume_eq. repeat split.
Qed.

(** X2.  For volumes in the documented range 0..256 the mixer receives a
    volume in 0..255 and a balance in -128..127.  They are the average
    [(rvol + lvol) / 2] and the half difference [(rvol - lvol) / 2], with
    two exceptions at the ends of the range: with both sides at 256 the
    volume received is 0, and with left 0 and right 256 the balance
    received is -128. *)
Theorem forwarded_volume_and_balance_bounds
  (c : AudioChannel) (mx : Mixer) (lvol rvol : Z) :
  0 <= lvol <= 256 -> 0 <= rvol <= 256 ->
  exists v b,
    mixer (setVolume lvol rvol c mx) =
    mx ++ [setChannelVolume (_soundHandle c) v; setChannelBalance (_soundHandle c) b] /\
    0 <= v <= 255 /\ -128 <= b <= 127 /\
    (~ (lvol = 256 /\ rvol = 256) -> v = Z.quot (rvol + lvol) 2) /\
    (lvol = 256 /\ rvol = 256 -> v = 0) /\
    (~ (lvol = 0 /\ rvol = 256) -> b = Z.quot (rvol - lvol) 2) /\
    (lvol = 0 /\ rvol = 256 -> b = -128).
Proof.
  intros Hl Hr. rewrite setVolume_eq. unfold mixer. simpl.
  unfold int_add, int_sub.
  rewrite !sint32_id by (unfold int_range; lia).
  rewrite !int_div2 by (unfold int_range; lia).
  eexists. eexists. split; [reflexivity |].
  assert (Hq : 0 <= Z.quot (rvol + lvol) 2 <= 256 /\
               (Z.quot (rvol + lvol) 2 = 256 -> lvol = 256 /\ rvol = 256)).
  { rewrite Z.quot_div_nonneg by lia.
    pose proof (Z.div_mod (rvol + lvol) 2 ltac:(lia)) as Hdm.
    pose proof (Z.mod_pos_bound (rvol + lvol) 2 ltac:(lia)) as Hmb.
    lia. }
  assert (Hd : -128 <= Z.quot (rvol - lvol) 2 <= 128 /\
               (Z.quot (rvol - lvol) 2 = 128 -> lvol = 0 /\ rvol = 256)).
  { destruct (Z_lt_le_dec (rvol - lvol) 0) as [Hneg | Hpos].
    - pose proof (Z.quot_opp_l (rvol - lvol) 2 ltac:(lia)) as Ho.
      rewrite Z.quot_div_nonneg in Ho by lia.
      pose proof (Z.div_mod (- (rvol - lvol)) 2 ltac:(lia)) as Hdm.
      pose proof (Z.mod_pos_bound (- (rvol - lvol)) 2 ltac:(lia)) as Hmb.
      lia.
    - rewrite Z.quot_div_nonneg by lia.
      pose proof (Z.div_mod (rvol - lvol) 2 ltac:(lia)) as Hdm.
      pose proof (Z.mod_pos_bound (rvol - lvol) 2 ltac:(lia)) as Hmb.
      lia. }
  destruct Hq as [Hq Hq256]. destruct Hd as [Hd Hd128].
  assert (Hv : 0 <= to_byte (Z.quot (rvol + lvol) 2) <= 255).
  { unfold to_byte. pose proof (Z.mod_pos_bound (Z.quot (rvol + lvol) 2) (2 ^ 8)
                                  ltac:(lia)). lia. }
  assert (Hb : -128 <= to_int8 (Z.quot (rvol - lvol) 2) <= 127).
  { unfold to_int8. pose proof (Z.mod_pos_bound (Z.quot (rvol - lvol) 2 + 2 ^ 7) (2 ^ 8)
                                  ltac:(lia)). lia. }
  split; [exact Hv |]. split; [exact Hb |].
  split; [| split; [| split]].
  - intros Hnot. apply to_byte_id.
    destruct (Z.eq_dec (Z.quot (rvol + lvol) 2) 256) as [H256 | Hne]; [| lia].
    exfalso. apply Hnot. apply Hq256. exact H256.
  - intros [-> ->]. reflexivity.
  - intros Hnot. apply to_int8_id.
    destruct (Z.eq_dec (Z.quot (rvol - lvol) 2) 128) as [H128 | Hne]; [| lia].
    exfalso. apply Hnot. apply Hd128. exact H128.
  - intros [-> ->]. reflexivity.
Qed.

Lemma forwarded_volume_and_balance_bounds_witness :
  exists v b,
    mixer (setVolume 0 256 (mkAudioChannel 7%nat 0 None 0 0 0 0 false) []) =
    [] ++ [setChannelVolume 7%nat v; setChannelBalance 7%nat b] /\
    0 <= v <= 255 /\ -128 <= b <= 127 /\
    (~ (0 = 256 /\ 256 = 256) -> v = Z.quot (256 + 0) 2) /\
    (0 = 256 /\ 256 = 256 -> v = 0) /\
    (~ (0 = 0 /\ 256 = 256) -> b = Z.quot (256 - 0) 2) /\
    (0 = 0 /\ 256 = 256 -> b = -128).
Proof.
  apply (forwarded_volume_and_balance_bounds
           (mkAudioChannel 7%nat 0 None 0 0 0 0 false) [] 0 256); lia.
Defined.

(** X3.  Exchanging left and right keeps the volume the mixer receives and
    negates the balance, as long as the balance [(rvol - lvol) / 2] lies in
    -127..127 (at 128 and -128 the [int8] parameter holds -128 either way);
    with both sides equal and in 0..255 the balance is 0 and the volume is
    that value.  (Sum and differences must fit an [int].) *)
Theorem swapping_sides_negates_balance
  (c : AudioChannel) (mx : Mixer) (lvol rvol : Z) :
  int_range (rvol + lvol) -> int_range (rvol - lvol) -> int_range (lvol - rvol) ->
  -127 <= Z.quot (rvol - lvol) 2 <= 127 ->
  exists v b,
    mixer (setVolume lvol rvol c mx) =
    mx ++ [setChannelVolume (_soundHandle c) v; setChannelBalance (_soundHandle c) b] /\
    mixer (setVolume rvol lvol c mx) =
    mx ++ [setChannelVolume (_soundHandle c) v; setChannelBalance (_soundHandle c) (- b)] /\
    b = Z.quot (rvol - lvol) 2 /\
    (lvol = rvol -> 0 <= lvol <= 255 -> v = lvol /\ b = 0).
Proof.
  intros Hs Hd Hd' Hb. rewrite !setVolume_eq. unfold mixer. simpl.
  unfold int_add, int_sub.
  replace (lvol + rvol) with (rvol + lvol) by lia.
  rewrite !sint32_id by assumption.
  rewrite !int_div2 by assumption.
  replace (lvol - rvol) with (- (rvol - lvol)) by lia.
  rewrite Z.quot_opp_l by lia.
  rewrite !to_int8_id by lia.
  eexists. eexists. split; [reflexivity |]. split; [reflexivity |].
  split; [reflexivity |].
  intros -> Hr. split.
  - replace (rvol + rvol) with (rvol * 2) by lia.
    rewrite Z.quot_mul by lia. apply to_byte_id. exact Hr.
  - replace (rvol - rvol) with 0 by lia. reflexivity.
Qed.

Lemma swapping_sides_negates_balance_witness :
  exists v b,
    mixer (setVolume 10 3 (mkAudioChannel 7%nat 0 None 0 0 0 0 false) []) =
    [] ++ [setChannelVolume 7%nat v; setChannelBalance 7%nat b] /\
    mixer (setVolume 3 10 (mkAudioChannel 7%nat 0 None 0 0 0 0 false) []) =
    [] ++ [setChannelVolume 7%nat v; setChannelBalance 7%nat (- b)] /\
    b = Z.quot (3 - 10) 2 /\
    (10 = 3 -> 0 <= 10 <= 255 -> v = 10 /\ b = 0).
Proof.
  apply (swapping_sides_negates_balance
           (mkAudioChannel 7%nat 0 None 0 0 0 0 false) [] 10 3);
    [unfold int_range; lia | unfold int_range; lia | unfold int_range; lia
     | split; vm_compute; discriminate].
Defined.

(** The cache does not filter: a second [setVolume] is forwarded like the
    first, also with the same values; the getter then returns the values
    set last. *)
Lemma setVolume_twice_forwards_twice
  (c : AudioChannel) (mx : Mixer) (l1 r1 l2 r2 : Z) :
  let s := and_then (setVolume l1 r1) (setVolume l2 r2) c mx in
  mixer s = mixer (setVolume l2 r2 c (mixer (setVolume l1 r1 c mx))) /\
  length (mixer s) = (length mx + 4)%nat /\
  result (getVolume (channel s) (mixer s)) = (l2, r2) /\
  channel s = channel (setVolume l2 r2 c mx).
Proof.
  unfold and_then. rewrite !setVolume_eq. unfold mixer, channel, result. simpl.
  rewrite !length_app. simpl. repeat split. lia.
Qed.

End AudioChannel.

(* ===================================================================== *)
(** ** Toon: ToonstruckSmackerDecoder *)
(* ===================================================================== *)

Module Decoder.
Import CInt.
Local Open Scope Z_scope.

Definition byte_val (b : byte) : Z := Z.of_N (Byte.to_N b).

(** A [Common::SeekableReadStream] as the bytes not yet read. *)
Definition Stream := list byte.

(** Modelled from the spec: [Common::ReadStream::readUint16LE] is host code
    that is not under src/.  It consumes two bytes and returns the unsigned
    16-bit value they encode, low byte first.  With fewer than two bytes
    left the host returns an unspecified value; the model stops there. *)
Definition readUint16LE (s : Stream) : option (Z * Stream) :=
  match s with
  | b0 :: b1 :: rest => Some (byte_val b0 + 256 * byte_val b1, rest)
  | _ => None
  end.

Section WithSmackerDecoder.

(** The base class [Video::SmackerDecoder] is host code.  [Base] stands for
    its private state; its three members used by movie.cpp are taken as they
    come. *)
Variable Base : Type.

(** The [Video::SmackerDecoder] part of the object: the protected
    [_fileStream] and the rest. *)
Record SmackerDecoder : Type := mkSmackerDecoder {
  _fileStream : Stream;
  base_state : Base
}.

(** [uint16 getHeight() const] *)
Variable getHeight : SmackerDecoder -> Z.
(** [Video::SmackerDecoder::handleAudioTrack(track, chunkSize, unpackedSize)] *)
Variable SmackerDecoder_handleAudioTrack : Z -> Z -> Z -> SmackerDecoder -> SmackerDecoder.
(** [Video::SmackerDecoder::loadStream(stream)]: the result and the base
    object after the call. *)
Variable SmackerDecoder_loadStream : Stream -> SmackerDecoder -> bool * SmackerDecoder.

Record ToonstruckSmackerDecoder : Type := mkDecoder {
  smacker : SmackerDecoder;
  _lowRes : bool
}.

(** [ToonstruckSmackerDecoder::ToonstruckSmackerDecoder()], on the freshly
    constructed base object. *)
Definition construct (b : SmackerDecoder) : ToonstruckSmackerDecoder :=
  mkDecoder b false.

(** Modelled from the spec: the accessor [isLowRes] is declared in
    toon/movie.h, which is not under src/; the decoder reports its low-res
    flag. *)
Definition isLowRes (d : ToonstruckSmackerDecoder) : bool := _lowRes d.

(** [void handleAudioTrack(byte track, uint32 chunkSize, uint32 unpackedSize)] *)
Definition handleAudioTrack (track chunkSize unpackedSize : Z)
  (d : ToonstruckSmackerDecoder) : option ToonstruckSmackerDecoder :=
  if (track =? 1) && (chunkSize =? 4) then
    '(_, s1) ← readUint16LE (_fileStream (smacker d));
    '(height, s2) ← readUint16LE s1;
    Some (mkDecoder (mkSmackerDecoder s2 (base_state (smacker d)))
                    (height =? Z.quot (getHeight (smacker d)) 2))
  else
    Some (mkDecoder
            (SmackerDecoder_handleAudioTrack track chunkSize unpackedSize (smacker d))
            (_lowRes d)).

(** [bool loadStream(Common::SeekableReadStream *stream)] *)
Definition loadStream (stream : Stream) (d : ToonstruckSmackerDecoder)
  : bool * ToonstruckSmackerDecoder :=
  let '(ok, b) := SmackerDecoder_loadStream stream (smacker d) in
  if negb ok then (false, mkDecoder b (_lowRes d))
  else (true, mkDecoder b false).

(** *** Properties *)

Lemma readUint16LE_two (b0 b1 : byte) (rest : Stream) :
  readUint16LE (b0 :: b1 :: rest) = Some (byte_val b0 + 256 * byte_val b1, rest).
Proof. reflexivity. Qed.

Lemma byte_val_range (b : byte) : 0 <= byte_val b < 256.
Proof.
  unfold byte_val. pose proof (Byte.to_N_bounded b) as H. lia.
Qed.

Lemma readUint16LE_range s v s' :
  readUint16LE s = Some (v, s') -> uint16_range v.
Proof.
  destruct s as [| b0 [| b1 rest]]; simpl; try discriminate.
  intros [= <- <-]. unfold uint16_range.
  pose proof (byte_val_range b0). pose proof (byte_val_range b1). lia.
Qed.

(** C6.  A chunk with [track = 1] and [chunkSize = 4] is a resolution
    record: four bytes are consumed as two little-endian 16-bit values, and
    the low-res flag becomes true exactly when the second one equals half
    the video height (truncating); the base part is otherwise untouched and
    the base handler is not run.  Any other chunk is handed to the base
    handler with the same three arguments, and the low-res flag keeps its
    value. *)
Theorem handleAudioTrack_resolution_record
  (track chunkSize unpackedSize : Z) (d : ToonstruckSmackerDecoder) :
  (track = 1 -> chunkSize = 4 ->
   forall (w0 w1 h0 h1 : byte) (rest : Stream),
     _fileStream (smacker d) = w0 :: w1 :: h0 :: h1 :: rest ->
     exists d',
       handleAudioTrack track chunkSize unpackedSize d = Some d' /\
       (_lowRes d' = true <->
        byte_val h0 + 256 * byte_val h1 = Z.quot (getHeight (smacker d)) 2) /\
       smacker d' = mkSmackerDecoder rest (base_state (smacker d))) /\
  (~ (track = 1 /\ chunkSize = 4) ->
   handleAudioTrack track chunkSize unpackedSize d =
   Some (mkDecoder
           (SmackerDecoder_handleAudioTrack track chunkSize unpackedSize (smacker d))
           (_lowRes d))).
Proof.
  split.
  - intros -> -> w0 w1 h0 h1 rest Hs.
    unfold handleAudioTrack. simpl. rewrite Hs. simpl.
    eexists. split; [reflexivity |]. simpl. split; [| reflexivity].
    apply Z.eqb_eq.
  - intros Hn. unfold handleAudioTrack.
    destruct (track =? 1) eqn:Ht; destruct (chunkSize =? 4) eqn:Hc; simpl;
      try reflexivity.
    exfalso. apply Hn. split; apply Z.eqb_eq; assumption.
Qed.

(** After a successful load the flag stays false until a resolution record
    is handled: handing a chunk to the base handler does not change it. *)
Lemma lowRes_kept_by_other_chunks track chunkSize unpackedSize d d' :
  ~ (track = 1 /\ chunkSize = 4) ->
  handleAudioTrack track chunkSize unpackedSize d = Some d' ->
  isLowRes d' = isLowRes d.
Proof.
  intros Hn. unfold handleAudioTrack.
  destruct (track =? 1) eqn:Ht; destruct (chunkSize =? 4) eqn:Hc; simpl;
    try (intros [= <-]; reflexivity).
  exfalso. apply Hn. split; apply Z.eqb_eq; assumption.
Qed.

(** C10.  [loadStream] returns what the base loader returns, so it returns
    false exactly when the base loader fails; whenever it returns true the
    decoder reports not-low-res, as a newly constructed decoder does, and
    keeps doing so while the chunks handled are not resolution records.  A
    failed load leaves the flag as it was. *)
Theorem loadStream_resets_lowRes (stream : Stream) (d : ToonstruckSmackerDecoder) :
  (fst (loadStream stream d) = false <->
   fst (SmackerDecoder_loadStream stream (smacker d)) = false) /\
  (fst (loadStream stream d) = true ->
   isLowRes (snd (loadStream stream d)) = false /\
   smacker (snd (loadStream stream d)) =
   snd (SmackerDecoder_loadStream stream (smacker d)) /\
   forall track chunkSize unpackedSize d',
     ~ (track = 1 /\ chunkSize = 4) ->
     handleAudioTrack track chunkSize unpackedSize (snd (loadStream stream d)) = Some d' ->
     isLowRes d' = false) /\
  (fst (loadStream stream d) = false ->
   isLowRes (snd (loadStream stream d)) = isLowRes d) /\
  (forall b, isLowRes (construct b) = false).
Proof.
  assert (Hkeep : forall d0, isLowRes d0 = false ->
            forall track chunkSize unpackedSize d',
              ~ (track = 1 /\ chunkSize = 4) ->
              handleAudioTrack track chunkSize unpackedSize d0 = Some d' ->
              isLowRes d' = false).
  { intros d0 H0 track chunkSize unpackedSize d' Hn Hh.
    rewrite (lowRes_kept_by_other_chunks _ _ _ _ _ Hn Hh). exact H0. }
  unfold loadStream.
  destruct (SmackerDecoder_loadStream stream (smacker d)) as [[|] b]; simpl.
  - split; [split; intros; congruence |].
    split; [| split; [intros; congruence | reflexivity]].
    intros _. split; [reflexivity |]. split; [reflexivity |].
    apply Hkeep. reflexivity.
  - split; [split; intros; congruence |].
    split; [intros; congruence |].
    split; reflexivity.
Qed.

End WithSmackerDecoder.

Arguments mkSmackerDecoder {Base} _ _.
Arguments _fileStream {Base} _.
Arguments base_state {Base} _.
Arguments mkDecoder {Base} _ _.
Arguments smacker {Base} _.
Arguments _lowRes {Base} _.
Arguments isLowRes {Base} _.
Arguments construct {Base} _.
Arguments handleAudioTrack {Base} _ _ _ _ _ _.
Arguments loadStream {Base} _ _ _.

(** *** A small base decoder to run the model on

    Its state is the video height; its audio handler skips the chunk; its
    loader accepts a stream that starts with the letters SMK and keeps the
    height found in the two bytes after them. *)
Module Sample.

Definition getHeight (b : SmackerDecoder Z) : Z := base_state b.

Definition base_handleAudioTrack (track chunkSize unpackedSize : Z)
  (b : SmackerDecoder Z) : SmackerDecoder Z :=
  mkSmackerDecoder (drop (Z.to_nat chunkSize) (_fileStream b)) (base_state b).

Definition base_loadStream (s : Stream) (b : SmackerDecoder Z)
  : bool * SmackerDecoder Z :=
  match s with
  | Byte.x53 :: Byte.x4d :: Byte.x4b :: rest =>
      match readUint16LE rest with
      | Some (hgt, rest') => (true, mkSmackerDecoder rest' hgt)
      | None => (false, b)
      end
  | _ => (false, b)
  end.

(** height 400; then a resolution record 640 x 200; then other bytes *)
Definition movie_bytes : Stream :=
  [Byte.x53; Byte.x4d; Byte.x4b; Byte.x90; Byte.x01;
   Byte.x80; Byte.x02; Byte.xc8; Byte.x00; Byte.x11; Byte.x22].

Definition fresh_decoder : ToonstruckSmackerDecoder Z :=
  construct (mkSmackerDecoder [] 0).

Definition loaded : ToonstruckSmackerDecoder Z :=
  snd (loadStream base_loadStream movie_bytes fresh_decoder).

Example loaded_ok :
  loadStream base_loadStream movie_bytes fresh_decoder =
  (true, mkDecoder (mkSmackerDecoder
                      [Byte.x80; Byte.x02; Byte.xc8; Byte.x00; Byte.x11; Byte.x22] 400)
                   false).
Proof. reflexivity. Qed.

Example resolution_record_sets_lowRes :
  handleAudioTrack getHeight base_handleAudioTrack 1 4 0 loaded =
  Some (mkDecoder (mkSmackerDecoder [Byte.x11; Byte.x22] 400) true).
Proof. reflexivity. Qed.

Example load_failure_keeps_flag :
  loadStream base_loadStream [Byte.x00]
    (mkDecoder (mkSmackerDecoder [] 400) true) =
  (false, mkDecoder (mkSmackerDecoder [] 400) true).
Proof. reflexivity. Qed.

End Sample.

Lemma handleAudioTrack_resolution_record_witness :
  (exists d',
     handleAudioTrack Sample.getHeight Sample.base_handleAudioTrack 1 4 0 Sample.loaded
       = Some d' /\
     (_lowRes d' = true <->
      byte_val Byte.xc8 + 256 * byte_val Byte.x00
        = Z.quot (Sample.getHeight (smacker Sample.loaded)) 2) /\
     smacker d' = mkSmackerDecoder [Byte.x11; Byte.x22]
                                   (base_state (smacker Sample.loaded))) /\
  handleAudioTrack Sample.getHeight Sample.base_handleAudioTrack 2 4 0 Sample.loaded =
  Some (mkDecoder (Sample.base_handleAudioTrack 2 4 0 (smacker Sample.loaded))
                  (_lowRes Sample.loaded)).
Proof.
  split.
  - destruct (handleAudioTrack_resolution_record Z Sample.getHeight
                Sample.base_handleAudioTrack 1 4 0 Sample.loaded) as [H _].
    exact (H eq_refl eq_refl Byte.x80 Byte.x02 Byte.xc8 Byte.x00
             [Byte.x11; Byte.x22] eq_refl).
  - destruct (handleAudioTrack_resolution_record Z Sample.getHeight
                Sample.base_handleAudioTrack 2 4 0 Sample.loaded) as [_ H].
    apply H. intros [Ht _]. discriminate Ht.
Defined.

Lemma loadStream_resets_lowRes_witness :
  fst (loadStream Sample.base_loadStream Sample.movie_bytes
         (mkDecoder (mkSmackerDecoder [] 0) true)) = true /\
  isLowRes (snd (loadStream Sample.base_loadStream Sample.movie_bytes
                   (mkDecoder (mkSmackerDecoder [] 0) true))) = false /\
  isLowRes (snd (loadStream Sample.base_loadStream [Byte.x00]
                   (mkDecoder (mkSmackerDecoder [] 0) true))) = true.
Proof.
  split; [reflexivity |]. split.
  - destruct (loadStream_resets_lowRes Z Sample.getHeight Sample.base_handleAudioTrack
                Sample.base_loadStream Sample.movie_bytes
                (mkDecoder (mkSmackerDecoder [] 0) true)) as (_ & H & _).
    destruct (H eq_refl) as [Hlow _]. exact Hlow.
  - destruct (loadStream_resets_lowRes Z Sample.getHeight Sample.base_handleAudioTrack
                Sample.base_loadStream [Byte.x00]
                (mkDecoder (mkSmackerDecoder [] 0) true)) as (_ & _ & H & _).
    apply H. reflexivity.
Defined.

(** *** Further properties of the decoder *)

Section MoreOnDecoder.

Variable Base : Type.
Variable getHeight : SmackerDecoder Base -> Z.
Variable SmackerDecoder_handleAudioTrack :
  Z -> Z -> Z -> SmackerDecoder Base -> SmackerDecoder Base.

(** [Common::Rational] and the track object the base class builds are host
    types; the base factory is taken as it comes. *)
Variable Rational : Type.
Variable SmackerVideoTrack : Type.
Variable SmackerDecoder_createVideoTrack :
  Z -> Z -> Z -> Rational -> Z -> Z -> SmackerVideoTrack.

(** [createVideoTrack(width, height, frameCount, frameRate, flags, version)] *)
Definition createVideoTrack (width height frameCount : Z) (frameRate : Rational)
  (flags version : Z) : SmackerVideoTrack :=
  SmackerDecoder_createVideoTrack width height frameCount frameRate
    (if height =? 200 then 4 else flags) version.

(** For a video of height 200 the flags of the caller never reach the
    base class: whatever they are, the track is the one the base builds for
    flags 4.  For any other height the call is passed on unchanged. *)
Theorem createVideoTrack_overrides_flags_at_height_200
  (width height frameCount : Z) (frameRate : Rational) (flags version : Z) :
  (height = 200 ->
   forall flags',
     createVideoTrack width height frameCount frameRate flags version =
     createVideoTrack width height frameCount frameRate flags' version /\
     createVideoTrack width height frameCount frameRate flags version =
     SmackerDecoder_createVideoTrack width 200 frameCount frameRate 4 version) /\
  (height <> 200 ->
   createVideoTrack width height frameCount frameRate flags version =
   SmackerDecoder_createVideoTrack width height frameCount frameRate flags version).
Proof.
  unfold createVideoTrack. split.
  - intros ->. intros flags'. simpl. split; reflexivity.
  - intros Hne. apply Z.eqb_neq in Hne. rewrite Hne. reflexivity.
Qed.

(** X5.  Of two resolution records in a row the second decides: eight bytes
    are consumed and the flag is true exactly when the height of the second
    record is half the video height; the first record, both width fields
    and both unpacked sizes have no influence, and neither has the flag
    held before. *)
Theorem last_resolution_record_decides
  (d : ToonstruckSmackerDecoder Base) (u1 u2 : Z)
  (a0 a1 a2 a3 b0 b1 b2 b3 : byte) (rest : Stream) :
  _fileStream (smacker d) = a0 :: a1 :: a2 :: a3 :: b0 :: b1 :: b2 :: b3 :: rest ->
  exists d1 d2,
    handleAudioTrack getHeight SmackerDecoder_handleAudioTrack 1 4 u1 d = Some d1 /\
    handleAudioTrack getHeight SmackerDecoder_handleAudioTrack 1 4 u2 d1 = Some d2 /\
    smacker d2 = mkSmackerDecoder rest (base_state (smacker d)) /\
    isLowRes d2 =
    (byte_val b2 + 256 * byte_val b3 =?
     Z.quot (getHeight (mkSmackerDecoder (b0 :: b1 :: b2 :: b3 :: rest)
                                         (base_state (smacker d)))) 2).
Proof.
  intros Hs. unfold handleAudioTrack. simpl. rewrite Hs. simpl.
  eexists. eexists. split; [reflexivity |]. split; [reflexivity |].
  split; reflexivity.
Qed.

End MoreOnDecoder.

Arguments createVideoTrack {Rational SmackerVideoTrack} _ _ _ _ _ _ _.

Lemma createVideoTrack_overrides_flags_at_height_200_witness :
  createVideoTrack (fun w h n (r : unit) f v => (w, h, n, f, v)) 320 200 10 tt 7 2 =
  createVideoTrack (fun w h n (r : unit) f v => (w, h, n, f, v)) 320 200 10 tt 0 2 /\
  createVideoTrack (fun w h n (r : unit) f v => (w, h, n, f, v)) 640 400 10 tt 7 2 =
  (640, 400, 10, 7, 2).
Proof.
  split.
  - destruct (createVideoTrack_overrides_flags_at_height_200 unit (Z * Z * Z * Z * Z)
                (fun w h n (r : unit) f v => (w, h, n, f, v)) 320 200 10 tt 7 2)
      as [H _].
    exact (proj1 (H eq_refl 0)).
  - destruct (createVideoTrack_overrides_flags_at_height_200 unit (Z * Z * Z * Z * Z)
                (fun w h n (r : unit) f v => (w, h, n, f, v)) 640 400 10 tt 7 2)
      as [_ H].
    apply H. discriminate.
Defined.

Lemma last_resolution_record_decides_witness :
  exists d1 d2,
    handleAudioTrack Sample.getHeight Sample.base_handleAudioTrack 1 4 0
      (mkDecoder (mkSmackerDecoder
                    [Byte.x80; Byte.x02; Byte.xc8; Byte.x00;
                     Byte.x80; Byte.x02; Byte.x90; Byte.x01; Byte.x11] 400) false)
    = Some d1 /\
    handleAudioTrack Sample.getHeight Sample.base_handleAudioTrack 1 4 9 d1 = Some d2 /\
    smacker d2 = mkSmackerDecoder [Byte.x11] 400 /\
    isLowRes d2 =
    (byte_val Byte.x90 + 256 * byte_val Byte.x01 =?
     Z.quot (Sample.getHeight
               (mkSmackerDecoder [Byte.x80; Byte.x02; Byte.x90; Byte.x01; Byte.x11] 400)) 2).
Proof.
  apply (last_resolution_record_decides Z Sample.getHeight Sample.base_handleAudioTrack
           (mkDecoder (mkSmackerDecoder
                         [Byte.x80; Byte.x02; Byte.xc8; Byte.x00;
                          Byte.x80; Byte.x02; Byte.x90; Byte.x01; Byte.x11] 400) false)
           0 9 Byte.x80 Byte.x02 Byte.xc8 Byte.x00 Byte.x80 Byte.x02 Byte.x90 Byte.x01
           [Byte.x11]).
  reflexivity.
Defined.

End Decoder.

(* ===================================================================== *)
(** ** Pixel buffers *)
(* ===================================================================== *)

Module Surface.
Local Open Scope Z_scope.

(** Modelled from the spec: [Graphics::Surface] is a host type that is not
    under src/.  A surface has a width [w] and a height [h] in pixels, a
    [pitch] (bytes from the start of one row to the start of the next) and
    a pixel buffer.  Frames of the decoder and the screen of this engine
    are 8-bit paletted: one byte per pixel. *)
Record t : Type := mk {
  w : Z;
  h : Z;
  pitch : Z;
  pixels : list byte
}.

(** [getBasePtr(x, y)], as an offset into [pixels]. *)
Definition getBasePtr (s : t) (x y : Z) : Z := y * pitch s + x.

(** [getPixels()], as an offset into [pixels]. *)
Definition getPixels (s : t) : Z := 0.

Definition with_pixels (s : t) (px : list byte) : t := mk (w s) (h s) (pitch s) px.

(** [memcpy(dst + dstOff, src + srcOff, n)] on byte buffers.  C leaves a
    copy that leaves either buffer undefined; here the bytes that exist are
    copied to the places that exist. *)
Definition memcpy (dst : list byte) (dstOff : Z) (src : list byte) (srcOff n : Z)
  : list byte :=
  list_inserts (Z.to_nat dstOff) (take (Z.to_nat n) (drop (Z.to_nat srcOff) src)) dst.

(** [for (int y = lo; y < hi; y++) body] *)
Definition for_range {St : Type} (lo hi : Z) (body : Z -> St -> St) (s : St) : St :=
  foldl (fun acc y => body y acc) s (seqZ lo (hi - lo)).

(** The byte of pixel [(x, y)]. *)
Definition at_xy (s : t) (x y : Z) : option byte :=
  pixels s !! Z.to_nat (getBasePtr s x y).

(** The buffer holds [rows] full rows. *)
Definition holds_rows (s : t) (rows : Z) : Prop :=
  rows * pitch s <= Z.of_nat (length (pixels s)).

(** *** Lemmas on buffers and loops *)

Lemma length_memcpy dst dstOff src srcOff n :
  length (memcpy dst dstOff src srcOff n) = length dst.
Proof. unfold memcpy. apply length_inserts. Qed.

Lemma lookup_memcpy_inside dst dstOff src srcOff n (i : nat) :
  0 <= dstOff -> 0 <= srcOff ->
  srcOff + n <= Z.of_nat (length src) ->
  dstOff <= Z.of_nat i < dstOff + n ->
  (i < length dst)%nat ->
  memcpy dst dstOff src srcOff n !! i =
  src !! Z.to_nat (srcOff + (Z.of_nat i - dstOff)).
Proof.
  intros Hd Hs Hsrc Hi Hlen. unfold memcpy.
  assert (Hk : length (take (Z.to_nat n) (drop (Z.to_nat srcOff) src)) = Z.to_nat n).
  { rewrite length_take, length_drop. lia. }
  rewrite list_lookup_inserts by lia.
  rewrite lookup_take_lt by lia.
  rewrite lookup_drop. f_equal. lia.
Qed.

Lemma lookup_memcpy_outside dst dstOff src srcOff n (i : nat) :
  0 <= dstOff ->
  Z.of_nat i < dstOff \/ dstOff + n <= Z.of_nat i ->
  memcpy dst dstOff src srcOff n !! i = dst !! i.
Proof.
  intros Hd [Hlt | Hge]; unfold memcpy.
  - apply list_lookup_inserts_lt. lia.
  - destruct (Z_le_gt_dec n 0) as [Hn | Hn].
    + replace (Z.to_nat n) with 0%nat by lia. reflexivity.
    + apply list_lookup_inserts_ge. rewrite length_take. lia.
Qed.

Lemma for_range_empty {St : Type} lo hi (body : Z -> St -> St) s :
  hi <= lo -> for_range lo hi body s = s.
Proof. intros H. unfold for_range. rewrite seqZ_nil by lia. reflexivity. Qed.

(** The loop rule: an invariant that holds on entry and is kept by every
    iteration holds on exit. *)
Lemma for_range_ind {St : Type} (P : Z -> St -> Prop) lo hi (body : Z -> St -> St) s :
  lo <= hi ->
  P lo s ->
  (forall y acc, lo <= y < hi -> P y acc -> P (y + 1) (body y acc)) ->
  P hi (for_range lo hi body s).
Proof.
  intros Hle H0 Hstep. unfold for_range.
  assert (Hgen : forall k : nat, Z.of_nat k <= hi - lo ->
            P (lo + Z.of_nat k) (foldl (fun acc y => body y acc) s (seqZ lo (Z.of_nat k)))).
  { induction k as [| k IH]; intros Hk.
    - simpl. replace (lo + Z.of_nat 0) with lo by lia. exact H0.
    - rewrite seqZ_S, foldl_snoc.
      replace (lo + Z.of_nat (S k)) with (lo + Z.of_nat k + 1) by lia.
      apply Hstep; [lia |]. apply IH. lia. }
  specialize (Hgen (Z.to_nat (hi - lo))).
  rewrite Z2Nat.id in Hgen by lia.
  replace (lo + (hi - lo)) with hi in Hgen by lia.
  apply Hgen. lia.
Qed.

(** Copying [wd] bytes to columns [x0 .. x0+wd-1] of row [row] of a buffer
    whose rows are [sp] bytes apart: the byte at column [x] of row [r]
    afterwards. *)
Lemma lookup_memcpy_span (dst src : list byte) (sp row x0 srcOff wd r x : Z) :
  0 <= row -> 0 <= x0 -> 0 <= wd -> x0 + wd <= sp ->
  0 <= srcOff -> srcOff + wd <= Z.of_nat (length src) ->
  row * sp + x0 + wd <= Z.of_nat (length dst) ->
  0 <= r -> 0 <= x < sp ->
  memcpy dst (row * sp + x0) src srcOff wd !! Z.to_nat (r * sp + x) =
  if (r =? row) && (x0 <=? x) && (x <? x0 + wd)
  then src !! Z.to_nat (srcOff + (x - x0))
  else dst !! Z.to_nat (r * sp + x).
Proof.
  intros Hrow Hx0 Hwd Hfit Hso Hsrc Hdst Hr Hx.
  assert (Hrs : 0 <= r * sp) by (apply Z.mul_nonneg_nonneg; lia).
  assert (Hws : 0 <= row * sp) by (apply Z.mul_nonneg_nonneg; lia).
  destruct (Z.eqb_spec r row) as [-> | Hne]; simpl.
  - destruct (Z.leb_spec x0 x) as [Hlo | Hlo]; simpl.
    + destruct (Z.ltb_spec x (x0 + wd)) as [Hhi | Hhi].
      * rewrite lookup_memcpy_inside by lia. f_equal. lia.
      * apply lookup_memcpy_outside; lia.
    + apply lookup_memcpy_outside; lia.
  - apply lookup_memcpy_outside; [lia |].
    destruct (Z_lt_le_dec r row) as [Hlt | Hgt].
    + left. assert ((r + 1) * sp <= row * sp) by (apply Z.mul_le_mono_nonneg_r; lia).
      lia.
    + right. assert ((row + 1) * sp <= r * sp) by (apply Z.mul_le_mono_nonneg_r; lia).
      lia.
Qed.

End Surface.

(* ===================================================================== *)
(** ** Toon: Movie *)
(* ===================================================================== *)

Module Movie.
Import CInt.
Local Open Scope Z_scope.

(** Case analysis on membership in a list that is written out. *)
Ltac elem_cases H :=
  repeat first
    [ apply elem_of_app in H as [H | H]
    | apply elem_of_cons in H as [H | H]
    | apply elem_of_nil in H; contradiction ].

(** *** The host, as movie.cpp sees it *)

Inductive EventType : Type := EVENT_KEYDOWN | EVENT_KEYUP | EVENT_QUIT | EVENT_MOUSEMOVE.
Inductive KeyCode : Type := KEYCODE_ESCAPE | KEYCODE_SPACE | KEYCODE_RETURN.

(** [Common::Event], the two members read here ([type], [kbd.keycode]). *)
Record Event : Type := mkEvent {
  ev_type : EventType;
  ev_keycode : KeyCode
}.

(** Calls into the host whose effect lies outside these sources.  They are
    recorded, oldest first, with the values of their arguments.  A pointer
    into the current frame is recorded as its offset in the frame's pixel
    buffer. *)
Inductive Call : Type :=
| setMusicVolume (volume : Z)
| decoder_loadFile (video : string)
| subtitle_load (video : string)
| decoder_start
| lockScreen
| unlockScreen
| copyRectToScreen (buf pitch x y w h : Z)
| subtitle_render (frame : Surface.t) (frameNumber : Z) (color : nat)
| setPalette (colors : list byte) (start num : nat)
| updateScreen
| delayMillis (msecs : Z)
| dirtyAllScreen
| flushPalette (deferFlushToNextRender : bool)
| decoder_close.

(** The part of the host the driver changes: the screen it draws on and
    the calls it has made. *)
Record System : Type := mkSystem {
  screen : Surface.t;
  calls : list Call
}.

Definition call (c : Call) (s : System) : System :=
  mkSystem (screen s) (calls s ++ [c]).

Definition on_screen (f : Surface.t -> Surface.t) (s : System) : System :=
  mkSystem (f (screen s)) (calls s).

(** Modelled from the spec: [OSystem::copyRectToScreen(buf, pitch, x, y, w, h)]
    is a host display call that is not under src/.  It copies a rectangle of
    [w] by [h] pixels, whose rows lie [pitch] bytes apart from [buf] on, to
    the screen with its top left corner at [(x, y)]. *)
Definition blit (src : list byte) (buf pitch x y w h : Z) (scr : Surface.t) : Surface.t :=
  Surface.for_range 0 h
    (fun r scr =>
       Surface.with_pixels scr
         (Surface.memcpy (Surface.pixels scr) (Surface.getBasePtr scr x (y + r))
                         src (buf + r * pitch) w))
    scr.

Definition do_copyRectToScreen (frame : Surface.t) (buf pitch x y w h : Z)
  (s : System) : System :=
  call (copyRectToScreen buf pitch x y w h)
       (on_screen (blit (Surface.pixels frame) buf pitch x y w h) s).

(** What the decoder and the host answer during one iteration of the loop
    of [playVideo]. *)
Record Tick : Type := mkTick {
  shouldQuit : bool;
  endOfVideo : bool;
  needsUpdate : bool;
  decodeNextFrame : option Surface.t;
  isLowRes : bool;
  getCurFrame : Z;
  getPalette : list byte;
  pollEvent : list Event
}.

(** *** The per-frame pixel operations *)

(** Lines 116-121: the rows of the frame, each written twice. *)
Definition scale2x (frame surf : Surface.t) : Surface.t :=
  Surface.for_range 0 (Z.quot (Surface.h frame) 2)
    (fun y surf =>
       let surf1 :=
         Surface.with_pixels surf
           (Surface.memcpy (Surface.pixels surf) (Surface.getBasePtr surf 0 (y * 2 + 0))
                           (Surface.pixels frame) (Surface.getBasePtr frame 0 y)
                           (Surface.pitch frame)) in
       Surface.with_pixels surf1
         (Surface.memcpy (Surface.pixels surf1) (Surface.getBasePtr surf1 0 (y * 2 + 1))
                         (Surface.pixels frame) (Surface.getBasePtr frame 0 y)
                         (Surface.pitch frame)))
    surf.

(** Line 128: [uint len = frame->w * frame->h]. *)
Definition frame_len (frame : Surface.t) : nat :=
  Z.to_nat (uint32 (int_mul (Surface.w frame) (Surface.h frame))).

(** The bytes [pixels[0 .. len-1]] the counting loop reads. *)
Definition scanned (frame : Surface.t) : list byte :=
  take (frame_len frame) (Surface.pixels frame).

(** Lines 130-134: [counts] after the counting loop. *)
Definition count_colors (px : list byte) : list bool :=
  foldl (fun counts b => <[Byte.to_nat b := true]> counts) (replicate 256%nat false) px.

(** Lines 112 and 137-142: [unused] after the search, which starts from the
    initial value 0 and stops at the first [j] in 1..255 with [counts[j]]
    false. *)
Definition find_unused (counts : list bool) : nat :=
  default 0%nat (List.find (fun j => negb (counts !!! j)) (seq 1 255)).

(** Lines 128-142 together: the colour key found for a frame. *)
Definition color_key (frame : Surface.t) : nat :=
  find_unused (count_colors (scanned frame)).

Definition subtitleColor : list byte := [Byte.xff; Byte.xff; Byte.x00].

(** Lines 151-154, in this order. *)
Definition glitch_patch (frame : Surface.t) (s : System) : System :=
  let w := Surface.w frame in
  let pitch := Surface.pitch frame in
  let s1 := do_copyRectToScreen frame (Surface.getBasePtr frame (w - 188) 123) pitch (w - 188) 124 188 1 s in
  let s2 := do_copyRectToScreen frame (Surface.getBasePtr frame (w - 188) 126) pitch (w - 188) 125 188 1 s1 in
  let s3 := do_copyRectToScreen frame (Surface.getBasePtr frame 0 125) pitch 0 126 64 1 s2 in
  do_copyRectToScreen frame (Surface.getBasePtr frame 0 128) pitch 0 127 64 1 s3.

Section WithSubtitleRenderer.

(** [SubtitleRenderer::render(frame, frameNumber, color)] is host code; it
    may draw on the screen.  What it leaves there is taken as it comes. *)
Variable render_on_screen : Surface.t -> Z -> nat -> Surface.t -> Surface.t.

Definition do_subtitle_render (frame : Surface.t) (frameNumber : Z) (color : nat)
  (s : System) : System :=
  call (subtitle_render frame frameNumber color)
       (on_screen (render_on_screen frame frameNumber color) s).

(** Lines 113-158: what happens to a decoded frame; returns [unused]. *)
Definition show_frame (isFirstIntroVideo : bool) (t : Tick) (frame : Surface.t)
  (s : System) : nat * System :=
  if isLowRes t then
    let s1 := call lockScreen s in
    let s2 := on_screen (scale2x frame) s1 in
    (0%nat, call unlockScreen s2)
  else
    let s1 := do_copyRectToScreen frame (Surface.getPixels frame) (Surface.pitch frame)
                0 0 (Surface.w frame) (Surface.h frame) s in
    let currentFrame := getCurFrame t in
    let unused := color_key frame in
    let s2 := do_subtitle_render frame currentFrame unused s1 in
    let s3 :=
      if isFirstIntroVideo then
        if (956 <=? currentFrame) && (currentFrame <=? 1038)
        then glitch_patch frame s2
        else s2
      else s2 in
    (unused, s3).

(** Lines 111-165: the body of [if (_decoder->needsUpdate())]. *)
Definition update (isFirstIntroVideo : bool) (t : Tick) (s : System) : System :=
  let '(unused, s1) :=
    match decodeNextFrame t with
    | Some frame => show_frame isFirstIntroVideo t frame s
    | None => (0%nat, s)
    end in
  let s2 := call (setPalette (getPalette t) 0 256) s1 in
  let s3 := if negb (unused =? 0)%nat
            then call (setPalette subtitleColor unused 1) s2
            else s2 in
  call updateScreen s3.

Definition is_escape (e : Event) : bool :=
  match ev_type e, ev_keycode e with
  | EVENT_KEYDOWN, KEYCODE_ESCAPE => true
  | _, _ => false
  end.

(** Lines 109-178.  [ticks] holds the answers of the host for the
    iterations to come; when it runs out before the loop has ended, the
    call has not returned ([None]). *)
Fixpoint playVideo_loop (isFirstIntroVideo : bool) (ticks : list Tick) (s : System)
  : option System :=
  match ticks with
  | [] => None
  | t :: ticks' =>
      if negb (shouldQuit t) && negb (endOfVideo t) then
        let s1 := if needsUpdate t then update isFirstIntroVideo t s else s in
        if existsb is_escape (pollEvent t) then Some (call dirtyAllScreen s1)
        else playVideo_loop isFirstIntroVideo ticks' (call (delayMillis 10) s1)
      else Some (call dirtyAllScreen s)
  end.

(** [void Movie::playVideo(bool isFirstIntroVideo)] *)
Definition playVideo (isFirstIntroVideo : bool) (ticks : list Tick) (s : System)
  : option System :=
  playVideo_loop isFirstIntroVideo ticks (call decoder_start s).

(** *** The Movie object *)

(** Objects on the C++ heap are known by their address. *)
Definition addr := positive.

Record Movie : Type := mkMovie {
  _vm : addr;
  _playing : bool;
  _decoder : addr;
  _subtitle : addr
}.

Definition set_playing (b : bool) (m : Movie) : Movie :=
  mkMovie (_vm m) b (_decoder m) (_subtitle m).

(** [new T(...)]: the allocator hands out the address [p]; the object
    there is live from now on. *)
Definition new (p : addr) (live : gset addr) : gset addr := {[p]} ∪ live.

(** [delete p]: the object at [p] is destroyed.  Deleting what is not live
    has no defined result. *)
Definition delete (p : addr) (live : gset addr) : option (gset addr) :=
  if decide (p ∈ live) then Some (live ∖ {[p]}) else None.

(** [Movie::Movie(ToonEngine *vm, ToonstruckSmackerDecoder *decoder)];
    [p] is the address the allocator gives the new [SubtitleRenderer]. *)
Definition Movie_ctor (vm decoder : addr) (p : addr) (live : gset addr)
  : Movie * gset addr :=
  (mkMovie vm false decoder p, new p live).

(** [Movie::~Movie()] *)
Definition Movie_dtor (m : Movie) (live : gset addr) : option (gset addr) :=
  live1 ← delete (_decoder m) live;
  delete (_subtitle m) live1.

(** How a call of [play] ends: it returns, or [error] stops the program,
    or it is still in the loop of [playVideo] when the answers run out. *)
Inductive Outcome : Type :=
| Returned (m : Movie) (s : System)
| Fatal (message : string) (m : Movie) (s : System)
| Unfinished.

(** Lines 83-85: [isFirstIntroVideo]. *)
Definition is_first_intro (video : string) : bool := String.eqb video "209_1M.SMK".

(** A C condition [if (z)]. *)
Definition truthy (z : Z) : bool := negb (z =? 0).

(** [void Movie::play(const Common::Path &video, int32 flags)].
    A path is the string it was made from.  [loadFile_ok] is what
    [_decoder->loadFile(video)] answers and [isMusicMuted] what the audio
    manager answers. *)
Definition play (video : string) (flags : Z) (loadFile_ok isMusicMuted : bool)
  (ticks : list Tick) (m : Movie) (s : System) : Outcome :=
  let isFirstIntroVideo := is_first_intro video in
  let m1 := set_playing true m in
  let s1 := if truthy (Z.land flags 1) then call (setMusicVolume 0) s else s in
  let s2 := call (decoder_loadFile video) s1 in
  if negb loadFile_ok then
    if truthy (Z.land flags 2) then Returned m1 s2
    else Fatal ("Unable to play video " ++ video) m1 s2
  else
    let s3 := call (subtitle_load video) s2 in
    match playVideo isFirstIntroVideo ticks s3 with
    | None => Unfinished
    | Some s4 =>
        let s5 := call (flushPalette true) s4 in
        let s6 := if truthy (Z.land flags 1)
                  then call (setMusicVolume (if isMusicMuted then 0 else 255)) s5
                  else s5 in
        let s7 := call decoder_close s6 in
        Returned (set_playing false m1) s7
    end.

(** *** Vocabulary of the properties *)

(** Palette index [j] is the value of one of the bytes [px]. *)
Definition occurs (j : nat) (px : list byte) : Prop :=
  exists b, b ∈ px /\ Byte.to_nat b = j.

(** The calls of lines 151-154. *)
Definition glitch_calls (frame : Surface.t) : list Call :=
  let w := Surface.w frame in
  let pitch := Surface.pitch frame in
  [copyRectToScreen (Surface.getBasePtr frame (w - 188) 123) pitch (w - 188) 124 188 1;
   copyRectToScreen (Surface.getBasePtr frame (w - 188) 126) pitch (w - 188) 125 188 1;
   copyRectToScreen (Surface.getBasePtr frame 0 125) pitch 0 126 64 1;
   copyRectToScreen (Surface.getBasePtr frame 0 128) pitch 0 127 64 1].

(** The condition of lines 147 and 149. *)
Definition glitch_due (isFirstIntroVideo : bool) (t : Tick) : bool :=
  isFirstIntroVideo && ((956 <=? getCurFrame t) && (getCurFrame t <=? 1038)).

(** [unused] when line 160 is reached. *)
Definition key_of_tick (t : Tick) : nat :=
  match decodeNextFrame t with
  | Some frame => if isLowRes t then 0%nat else color_key frame
  | None => 0%nat
  end.

(** The calls of lines 113-158. *)
Definition frame_calls (isFirstIntroVideo : bool) (t : Tick) : list Call :=
  match decodeNextFrame t with
  | Some frame =>
      if isLowRes t then [lockScreen; unlockScreen]
      else [copyRectToScreen (Surface.getPixels frame) (Surface.pitch frame) 0 0
                             (Surface.w frame) (Surface.h frame);
            subtitle_render frame (getCurFrame t) (color_key frame)]
           ++ (if glitch_due isFirstIntroVideo t then glitch_calls frame else [])
  | None => []
  end.

(** The calls of lines 161-164. *)
Definition palette_calls (t : Tick) : list Call :=
  setPalette (getPalette t) 0 256
  :: (if negb (key_of_tick t =? 0)%nat
      then [setPalette subtitleColor (key_of_tick t) 1]
      else []).

(** One iteration of the loop of lines 117-120. *)
Definition double_row (frame : Surface.t) (y : Z) (surf : Surface.t) : Surface.t :=
  let surf1 :=
    Surface.with_pixels surf
      (Surface.memcpy (Surface.pixels surf) (Surface.getBasePtr surf 0 (y * 2 + 0))
                      (Surface.pixels frame) (Surface.getBasePtr frame 0 y)
                      (Surface.pitch frame)) in
  Surface.with_pixels surf1
    (Surface.memcpy (Surface.pixels surf1) (Surface.getBasePtr surf1 0 (y * 2 + 1))
                    (Surface.pixels frame) (Surface.getBasePtr frame 0 y)
                    (Surface.pitch frame)).

(** The state of the screen after the rows below [k] have been doubled. *)
Definition doubled_upto (frame scr : Surface.t) (k : Z) (acc : Surface.t) : Prop :=
  Surface.pitch acc = Surface.pitch scr /\
  Surface.w acc = Surface.w scr /\
  Surface.h acc = Surface.h scr /\
  length (Surface.pixels acc) = length (Surface.pixels scr) /\
  (forall y x, 0 <= y < k -> 0 <= x < Surface.pitch frame ->
     Surface.at_xy acc x (2 * y) = Surface.at_xy frame x y /\
     Surface.at_xy acc x (2 * y + 1) = Surface.at_xy frame x y) /\
  (forall r x, 0 <= r -> 0 <= x < Surface.pitch scr ->
     2 * k <= r \/ Surface.pitch frame <= x ->
     Surface.at_xy acc x r = Surface.at_xy scr x r).

(** The four one-row copies of lines 151-154 on a screen [scr]. *)
Definition patched (frame scr : Surface.t) : Surface.t :=
  let w := Surface.w frame in
  let pitch := Surface.pitch frame in
  let px := Surface.pixels frame in
  blit px (Surface.getBasePtr frame 0 128) pitch 0 127 64 1
    (blit px (Surface.getBasePtr frame 0 125) pitch 0 126 64 1
       (blit px (Surface.getBasePtr frame (w - 188) 126) pitch (w - 188) 125 188 1
          (blit px (Surface.getBasePtr frame (w - 188) 123) pitch (w - 188) 124 188 1
             scr))).

(** Column [x] of row [r] lies in one of the four patched spans. *)
Definition in_patch (frame : Surface.t) (r x : Z) : Prop :=
  ((r = 124 \/ r = 125) /\ Surface.w frame - 188 <= x < Surface.w frame) \/
  ((r = 126 \/ r = 127) /\ 0 <= x < 64).

(** The calls an update adds to those made before. *)
Definition update_calls (isFirstIntroVideo : bool) (t : Tick) (s : System) : list Call :=
  drop (length (calls s)) (calls (update isFirstIntroVideo t s)).

(** The four copies of the workaround were made, one after the other. *)
Definition workaround_applied (frame : Surface.t) (cs : list Call) : Prop :=
  exists pre post, cs = pre ++ glitch_calls frame ++ post.

(** This iteration ends the loop: the host asks to quit, the video is
    over, or Escape was pressed. *)
Definition tick_ends (t : Tick) : bool :=
  shouldQuit t || endOfVideo t || existsb is_escape (pollEvent t).

(** The screen when line 147 is reached. *)
Definition screen_before_patch (t : Tick) (frame : Surface.t) (s : System) : Surface.t :=
  render_on_screen frame (getCurFrame t) (color_key frame)
    (blit (Surface.pixels frame) (Surface.getPixels frame) (Surface.pitch frame) 0 0
          (Surface.w frame) (Surface.h frame) (screen s)).

(** *** The colour-key search *)

Lemma count_colors_acc (px : list byte) (acc : list bool) (j : nat) :
  (j < length acc)%nat ->
  foldl (fun counts b => <[Byte.to_nat b := true]> counts) acc px !! j = Some true <->
  acc !! j = Some true \/ occurs j px.
Proof.
  revert acc. induction px as [| b px IH]; intros acc Hj; simpl.
  - split; [auto |]. intros [H | [b [Hb _]]]; [exact H |].
    apply elem_of_nil in Hb. contradiction.
  - rewrite IH by (rewrite length_insert; exact Hj).
    destruct (decide (Byte.to_nat b = j)) as [Heq | Hne].
    + rewrite Heq. rewrite list_lookup_insert_eq by exact Hj.
      split; intros _; [right | left; reflexivity].
      exists b. split; [apply elem_of_cons; auto | exact Heq].
    + rewrite list_lookup_insert_ne by exact Hne.
      split; (intros [H | [b' [Hb' Hv]]]; [left; exact H | right]).
      * exists b'. split; [apply elem_of_cons; auto | exact Hv].
      * exists b'. split; [| exact Hv].
        apply elem_of_cons in Hb' as [Hb | Hin]; [congruence | exact Hin].
Qed.

Lemma length_count_colors px : length (count_colors px) = 256%nat.
Proof.
  unfold count_colors.
  generalize (replicate 256%nat false) (length_replicate 256%nat false).
  induction px as [| b px IH]; intros acc Hacc; simpl; [exact Hacc |].
  apply IH. rewrite length_insert. exact Hacc.
Qed.

(** [counts[j]] is set exactly for the indices that occur. *)
Lemma count_colors_spec (px : list byte) (j : nat) :
  (j < 256)%nat ->
  count_colors px !!! j = true <-> occurs j px.
Proof.
  intros Hj. unfold count_colors.
  pose proof (count_colors_acc px (replicate 256%nat false) j) as H.
  rewrite length_replicate in H. specialize (H Hj).
  rewrite lookup_replicate_2 in H by exact Hj.
  pose proof (length_count_colors px) as Hlen. unfold count_colors in Hlen.
  destruct (lookup_lt_is_Some_2
              (foldl (fun counts b => <[Byte.to_nat b := true]> counts)
                     (replicate 256%nat false) px) j ltac:(lia)) as [v Hv].
  rewrite (list_lookup_total_correct _ _ _ Hv).
  rewrite Hv in H. split.
  - intros ->. destruct H as [H _].
    destruct (H eq_refl) as [Hf | Ho]; [discriminate | exact Ho].
  - intros Ho. destruct H as [_ H].
    specialize (H (or_intror Ho)). congruence.
Qed.

(** A search loop with [break] over [start .. start+len-1] stops at the
    least index that passes the test. *)
Lemma find_seq_least (p : nat -> bool) (len start : nat) :
  match List.find p (seq start len) with
  | Some j => (start <= j < start + len)%nat /\ p j = true /\
              forall k, (start <= k < j)%nat -> p k = false
  | None => forall k, (start <= k < start + len)%nat -> p k = false
  end.
Proof.
  revert start. induction len as [| len IH]; intros start; simpl.
  - intros k Hk. lia.
  - destruct (p start) eqn:Hp.
    + split; [lia |]. split; [exact Hp |]. intros k Hk. lia.
    + specialize (IH (S start)).
      destruct (List.find p (seq (S start) len)) as [j |].
      * destruct IH as (Hr & Hj & Hmin). split; [lia |]. split; [exact Hj |].
        intros k Hk. destruct (decide (k = start)) as [-> | Hne]; [exact Hp |].
        apply Hmin. lia.
      * intros k Hk. destruct (decide (k = start)) as [-> | Hne]; [exact Hp |].
        apply IH. lia.
Qed.

(** What [unused] holds after the search, for a frame whose scanned bytes
    are [px]. *)
Lemma find_unused_spec (px : list byte) :
  let u := find_unused (count_colors px) in
  (u <= 255)%nat /\
  (u <> 0%nat -> ~ occurs u px /\ forall k, (1 <= k < u)%nat -> occurs k px) /\
  (u = 0%nat <-> forall j, (1 <= j <= 255)%nat -> occurs j px).
Proof.
  unfold find_unused.
  pose proof (find_seq_least (fun j => negb (count_colors px !!! j)) 255 1) as H.
  destruct (List.find _ (seq 1 255)) as [j |]; simpl.
  - destruct H as (Hr & Hj & Hmin).
    apply negb_true_iff in Hj.
    split; [lia |]. split.
    + intros _. split.
      * intros Ho. apply count_colors_spec in Ho; [congruence | lia].
      * intros k Hk. apply count_colors_spec; [lia |].
        specialize (Hmin k ltac:(lia)). apply negb_false_iff in Hmin. exact Hmin.
    + split; [lia |]. intros Hall. exfalso.
      specialize (Hall j ltac:(lia)).
      apply count_colors_spec in Hall; [congruence | lia].
  - split; [lia |]. split; [congruence |]. split; [| reflexivity].
    intros _ j Hj. apply count_colors_spec; [lia |].
    specialize (H j ltac:(lia)). apply negb_false_iff in H. exact H.
Qed.

Lemma frame_len_in_range (frame : Surface.t) :
  0 <= Surface.w frame < 2 ^ 15 -> 0 <= Surface.h frame < 2 ^ 15 ->
  frame_len frame = Z.to_nat (Surface.w frame * Surface.h frame).
Proof.
  intros Hw Hh. unfold frame_len, int_mul.
  assert (0 <= Surface.w frame * Surface.h frame < 2 ^ 30) by nia.
  rewrite sint32_id by (unfold int_range; lia).
  rewrite uint32_id by lia. reflexivity.
Qed.

(** *** The calls of one update *)

Lemma calls_glitch_patch frame s :
  calls (glitch_patch frame s) = calls s ++ glitch_calls frame.
Proof.
  unfold glitch_patch, glitch_calls, do_copyRectToScreen, call, on_screen. simpl.
  repeat rewrite <- app_assoc. reflexivity.
Qed.

Lemma show_frame_key isFirstIntroVideo t frame s :
  decodeNextFrame t = Some frame ->
  fst (show_frame isFirstIntroVideo t frame s) = key_of_tick t.
Proof.
  intros Hf. unfold show_frame, key_of_tick. rewrite Hf.
  destruct (isLowRes t); reflexivity.
Qed.

Lemma calls_show_frame isFirstIntroVideo t frame s :
  decodeNextFrame t = Some frame ->
  calls (snd (show_frame isFirstIntroVideo t frame s)) =
  calls s ++ frame_calls isFirstIntroVideo t.
Proof.
  intros Hf. unfold show_frame, frame_calls, glitch_due. rewrite Hf.
  destruct (isLowRes t); cbn [snd].
  - simpl. rewrite <- app_assoc. reflexivity.
  - destruct isFirstIntroVideo; cbn [andb].
    + destruct ((956 <=? getCurFrame t) && (getCurFrame t <=? 1038)).
      * rewrite calls_glitch_patch. simpl.
        repeat rewrite <- app_assoc. reflexivity.
      * simpl. repeat rewrite <- app_assoc. reflexivity.
    + simpl. repeat rewrite <- app_assoc. reflexivity.
Qed.

(** The calls one update adds to the record. *)
Lemma calls_update isFirstIntroVideo t s :
  calls (update isFirstIntroVideo t s) =
  calls s ++ frame_calls isFirstIntroVideo t ++ palette_calls t ++ [updateScreen].
Proof.
  unfold update, palette_calls.
  destruct (decodeNextFrame t) as [frame |] eqn:Hf.
  - pose proof (show_frame_key isFirstIntroVideo t frame s Hf) as Hk.
    pose proof (calls_show_frame isFirstIntroVideo t frame s Hf) as Hc.
    destruct (show_frame isFirstIntroVideo t frame s) as [unused s1].
    simpl in Hk, Hc. subst unused.
    destruct (negb (key_of_tick t =? 0)%nat); simpl; rewrite Hc;
      repeat rewrite <- app_assoc; reflexivity.
  - assert (Hk : key_of_tick t = 0%nat) by (unfold key_of_tick; rewrite Hf; reflexivity).
    assert (Hc : frame_calls isFirstIntroVideo t = [])
      by (unfold frame_calls; rewrite Hf; reflexivity).
    rewrite Hk, Hc. simpl. rewrite <- app_assoc. reflexivity.
Qed.

(** *** The 2x scale-up *)

Lemma scale2x_unfold frame surf :
  scale2x frame surf =
  Surface.for_range 0 (Z.quot (Surface.h frame) 2) (double_row frame) surf.
Proof. reflexivity. Qed.

Lemma double_row_step (frame scr : Surface.t) (n y : Z) (acc : Surface.t) :
  0 <= Surface.pitch frame <= Surface.pitch scr ->
  Surface.holds_rows frame n ->
  Surface.holds_rows scr (2 * n) ->
  0 <= y < n ->
  doubled_upto frame scr y acc ->
  doubled_upto frame scr (y + 1) (double_row frame y acc).
Proof.
  intros Hp Hfr Hsc Hy (Hpitch & Hw & Hh & Hlen & Hdone & Hrest).
  unfold Surface.holds_rows in Hfr, Hsc.
  set (fp := Surface.pitch frame) in *. set (sp := Surface.pitch scr) in *.
  assert (Hsrc : 0 <= y * fp /\ y * fp + fp <= Z.of_nat (length (Surface.pixels frame))).
  { assert (0 <= y * fp) by (apply Z.mul_nonneg_nonneg; lia).
    assert ((y + 1) * fp <= n * fp) by (apply Z.mul_le_mono_nonneg_r; lia).
    lia. }
  assert (Hdst : (y * 2 + 1 + 1) * sp <= Z.of_nat (length (Surface.pixels acc))).
  { rewrite Hlen.
    assert ((y * 2 + 1 + 1) * sp <= 2 * n * sp) by (apply Z.mul_le_mono_nonneg_r; lia).
    lia. }
  assert (Hlook : forall r x, 0 <= r -> 0 <= x < sp ->
            Surface.at_xy (double_row frame y acc) x r =
            if (r =? y * 2 + 1) && (0 <=? x) && (x <? 0 + fp)
            then Surface.pixels frame !! Z.to_nat (y * fp + 0 + (x - 0))
            else if (r =? y * 2 + 0) && (0 <=? x) && (x <? 0 + fp)
                 then Surface.pixels frame !! Z.to_nat (y * fp + 0 + (x - 0))
                 else Surface.at_xy acc x r).
  { intros r x Hr Hx.
    unfold double_row, Surface.at_xy, Surface.getBasePtr, Surface.with_pixels. simpl.
    rewrite Hpitch. fold fp. fold sp.
    assert (Hrow1 : (y * 2 + 0 + 1) * sp <= (y * 2 + 1 + 1) * sp)
      by (apply Z.mul_le_mono_nonneg_r; lia).
    rewrite Surface.lookup_memcpy_span;
      [| lia | lia | lia | lia | lia | lia
       | rewrite Surface.length_memcpy; lia | lia | lia].
    destruct ((r =? y * 2 + 1) && (0 <=? x) && (x <? 0 + fp)); [reflexivity |].
    rewrite Surface.lookup_memcpy_span by lia.
    reflexivity. }
  unfold doubled_upto.
  split; [exact Hpitch |]. split; [exact Hw |]. split; [exact Hh |].
  split.
  { unfold double_row, Surface.with_pixels. simpl.
    rewrite !Surface.length_memcpy. exact Hlen. }
  split.
  - intros y' x Hy' Hx.
    rewrite !Hlook by lia.
    destruct (Z.eq_dec y' y) as [-> | Hne].
    + replace (2 * y =? y * 2 + 1) with false by (symmetry; apply Z.eqb_neq; lia).
      replace (2 * y =? y * 2 + 0) with true by (symmetry; apply Z.eqb_eq; lia).
      replace (2 * y + 1 =? y * 2 + 1) with true by (symmetry; apply Z.eqb_eq; lia).
      replace (0 <=? x) with true by (symmetry; apply Z.leb_le; lia).
      replace (x <? 0 + fp) with true by (symmetry; apply Z.ltb_lt; lia).
      simpl. unfold Surface.at_xy, Surface.getBasePtr. fold fp.
      split; f_equal; lia.
    + replace (2 * y' =? y * 2 + 1) with false by (symmetry; apply Z.eqb_neq; lia).
      replace (2 * y' =? y * 2 + 0) with false by (symmetry; apply Z.eqb_neq; lia).
      replace (2 * y' + 1 =? y * 2 + 1) with false by (symmetry; apply Z.eqb_neq; lia).
      replace (2 * y' + 1 =? y * 2 + 0) with false by (symmetry; apply Z.eqb_neq; lia).
      simpl. apply Hdone; lia.
  - intros r x Hr Hx Hout.
    rewrite Hlook by lia.
    destruct Hout as [Hrow | Hcol].
    + replace (r =? y * 2 + 1) with false by (symmetry; apply Z.eqb_neq; lia).
      replace (r =? y * 2 + 0) with false by (symmetry; apply Z.eqb_neq; lia).
      simpl. apply Hrest; lia.
    + replace (x <? 0 + fp) with false by (symmetry; apply Z.ltb_ge; lia).
      rewrite !andb_false_r. apply Hrest; lia.
Qed.

(** What the loop of lines 117-120 leaves on the screen. *)
Lemma scale2x_spec (frame scr : Surface.t) :
  0 <= Surface.pitch frame <= Surface.pitch scr ->
  Surface.holds_rows frame (Z.quot (Surface.h frame) 2) ->
  Surface.holds_rows scr (2 * Z.quot (Surface.h frame) 2) ->
  doubled_upto frame scr (Z.quot (Surface.h frame) 2) (scale2x frame scr).
Proof.
  intros Hp Hfr Hsc. rewrite scale2x_unfold.
  destruct (Z_le_gt_dec (Z.quot (Surface.h frame) 2) 0) as [Hn | Hn].
  - rewrite Surface.for_range_empty by exact Hn.
    unfold doubled_upto. repeat split; try reflexivity; lia.
  - apply (Surface.for_range_ind (doubled_upto frame scr)); [lia | |].
    + unfold doubled_upto. repeat split; try reflexivity; lia.
    + intros y acc Hy Hacc.
      apply (double_row_step frame scr (Z.quot (Surface.h frame) 2)); assumption.
Qed.

Lemma screen_update_lowres isFirstIntroVideo t frame s :
  decodeNextFrame t = Some frame -> isLowRes t = true ->
  screen (update isFirstIntroVideo t s) = scale2x frame (screen s).
Proof.
  intros Hf Hlow. unfold update, show_frame. rewrite Hf, Hlow. reflexivity.
Qed.

(** *** The glitch patch *)

(** A copy to the screen changes neither its pitch nor its size. *)
Lemma blit_dims src buf pitch x y w h scr :
  Surface.pitch (blit src buf pitch x y w h scr) = Surface.pitch scr /\
  length (Surface.pixels (blit src buf pitch x y w h scr)) =
  length (Surface.pixels scr).
Proof.
  unfold blit.
  destruct (Z_le_gt_dec h 0) as [Hh | Hh].
  - rewrite Surface.for_range_empty by exact Hh. split; reflexivity.
  - apply (Surface.for_range_ind
             (fun _ acc => Surface.pitch acc = Surface.pitch scr /\
                           length (Surface.pixels acc) = length (Surface.pixels scr)));
      [lia | split; reflexivity |].
    intros r acc _ [Hp Hl]. split; [exact Hp |].
    simpl. rewrite Surface.length_memcpy. exact Hl.
Qed.

Lemma blit_one_row src buf pitch x y w scr :
  blit src buf pitch x y w 1 scr =
  Surface.with_pixels scr
    (Surface.memcpy (Surface.pixels scr) (Surface.getBasePtr scr x (y + 0))
                    src (buf + 0 * pitch) w).
Proof. reflexivity. Qed.

Lemma screen_glitch_patch frame s :
  screen (glitch_patch frame s) = patched frame (screen s).
Proof. reflexivity. Qed.

Lemma patched_spec (frame scr : Surface.t) :
  188 <= Surface.w frame <= Surface.pitch frame ->
  Surface.w frame <= Surface.pitch scr ->
  Surface.holds_rows frame 129 ->
  Surface.holds_rows scr 128 ->
  let scr' := patched frame scr in
  (forall x, Surface.w frame - 188 <= x < Surface.w frame ->
     Surface.at_xy scr' x 124 = Surface.at_xy frame x 123 /\
     Surface.at_xy scr' x 125 = Surface.at_xy frame x 126) /\
  (forall x, 0 <= x < 64 ->
     Surface.at_xy scr' x 126 = Surface.at_xy frame x 125 /\
     Surface.at_xy scr' x 127 = Surface.at_xy frame x 128) /\
  (forall r x, 0 <= r -> 0 <= x < Surface.pitch scr -> ~ in_patch frame r x ->
     Surface.at_xy scr' x r = Surface.at_xy scr x r).
Proof.
  intros Hw Hs Hfr Hsc scr'.
  unfold Surface.holds_rows in Hfr, Hsc.
  set (W := Surface.w frame) in *. set (fp := Surface.pitch frame) in *.
  set (sp := Surface.pitch scr) in *.
  assert (Hlook : forall r x, 0 <= r -> 0 <= x < sp ->
            Surface.at_xy scr' x r =
            if (r =? 127 + 0) && (0 <=? x) && (x <? 0 + 64)
            then Surface.pixels frame !! Z.to_nat (128 * fp + 0 + 0 * fp + (x - 0))
            else if (r =? 126 + 0) && (0 <=? x) && (x <? 0 + 64)
            then Surface.pixels frame !! Z.to_nat (125 * fp + 0 + 0 * fp + (x - 0))
            else if (r =? 125 + 0) && (W - 188 <=? x) && (x <? W - 188 + 188)
            then Surface.pixels frame !!
                   Z.to_nat (126 * fp + (W - 188) + 0 * fp + (x - (W - 188)))
            else if (r =? 124 + 0) && (W - 188 <=? x) && (x <? W - 188 + 188)
            then Surface.pixels frame !!
                   Z.to_nat (123 * fp + (W - 188) + 0 * fp + (x - (W - 188)))
            else Surface.at_xy scr x r).
  { intros r x Hr Hx. unfold scr', patched. rewrite !blit_one_row.
    unfold Surface.at_xy, Surface.getBasePtr, Surface.with_pixels. simpl.
    fold W. fold fp. fold sp.
    rewrite Surface.lookup_memcpy_span by (rewrite ?Surface.length_memcpy; lia).
    destruct ((r =? 127 + 0) && (0 <=? x) && (x <? 0 + 64)); [reflexivity |].
    rewrite Surface.lookup_memcpy_span by (rewrite ?Surface.length_memcpy; lia).
    destruct ((r =? 126 + 0) && (0 <=? x) && (x <? 0 + 64)); [reflexivity |].
    rewrite Surface.lookup_memcpy_span by (rewrite ?Surface.length_memcpy; lia).
    destruct ((r =? 125 + 0) && (W - 188 <=? x) && (x <? W - 188 + 188));
      [reflexivity |].
    rewrite Surface.lookup_memcpy_span by (rewrite ?Surface.length_memcpy; lia).
    reflexivity. }
  assert (Hsrc : forall x y, Surface.at_xy frame x y =
                             Surface.pixels frame !! Z.to_nat (y * fp + x))
    by reflexivity.
  split; [| split].
  - intros x Hx. rewrite !Hlook by lia. rewrite !Hsrc.
    replace (W - 188 <=? x) with true by (symmetry; apply Z.leb_le; lia).
    replace (x <? W - 188 + 188) with true by (symmetry; apply Z.ltb_lt; lia).
    simpl. split; f_equal; lia.
  - intros x Hx. rewrite !Hlook by lia. rewrite !Hsrc.
    replace (0 <=? x) with true by (symmetry; apply Z.leb_le; lia).
    replace (x <? 0 + 64) with true by (symmetry; apply Z.ltb_lt; lia).
    simpl. split; f_equal; lia.
  - intros r x Hr Hx Hout. rewrite Hlook by lia.
    unfold in_patch in Hout. fold W in Hout.
    repeat match goal with
           | |- context [if ?c then _ else _] =>
               let E := fresh "E" in
               destruct c eqn:E;
               [ exfalso; apply Hout;
                 apply andb_prop in E as [E ?]; apply andb_prop in E as [E ?]; lia
               | ]
           end.
    reflexivity.
Qed.

(** C1.  For a decoded frame that is not low-res, the update passes the
    subtitle renderer the colour key of the frame, and this key is the least
    index in 1..255 that is the value of none of the frame's [w * h] pixel
    bytes whenever there is such an index.  Index 0 is not a candidate: the
    key is 0 only when all of 1..255 occur, whether or not 0 occurs. *)
Theorem color_key_is_least_unused_index
  (isFirstIntroVideo : bool) (t : Tick) (frame : Surface.t) (s : System) :
  decodeNextFrame t = Some frame ->
  isLowRes t = false ->
  0 <= Surface.w frame < 2 ^ 15 ->
  0 <= Surface.h frame < 2 ^ 15 ->
  Surface.w frame * Surface.h frame <= Z.of_nat (length (Surface.pixels frame)) ->
  let px := take (Z.to_nat (Surface.w frame * Surface.h frame)) (Surface.pixels frame) in
  let unused := color_key frame in
  Z.of_nat (length px) = Surface.w frame * Surface.h frame /\
  (exists rest,
     calls (update isFirstIntroVideo t s) =
     calls s ++
     [copyRectToScreen (Surface.getPixels frame) (Surface.pitch frame) 0 0
                       (Surface.w frame) (Surface.h frame);
      subtitle_render frame (getCurFrame t) unused] ++ rest) /\
  ((exists j, (1 <= j <= 255)%nat /\ ~ occurs j px) ->
   (1 <= unused <= 255)%nat /\ ~ occurs unused px /\
   forall k, (1 <= k < unused)%nat -> occurs k px) /\
  (unused = 0%nat <-> forall j, (1 <= j <= 255)%nat -> occurs j px).
Proof.
  intros Hf Hlow Hw Hh Hbuf px unused.
  assert (Hpx : scanned frame = px).
  { unfold scanned. rewrite frame_len_in_range by assumption. reflexivity. }
  pose proof (find_unused_spec (scanned frame)) as Hspec.
  fold (color_key frame) in Hspec. fold unused in Hspec. rewrite Hpx in Hspec.
  simpl in Hspec. destruct Hspec as (Hmax & Hfound & Hzero).
  split.
  { unfold px. rewrite length_take. lia. }
  split.
  { rewrite calls_update. unfold frame_calls. rewrite Hf, Hlow.
    eexists. rewrite <- app_assoc. reflexivity. }
  split; [| exact Hzero].
  intros (j & Hj & Hfree).
  assert (Hnz : unused <> 0%nat).
  { intros H0. apply Hfree. apply Hzero; assumption. }
  destruct (Hfound Hnz) as [Hu Hmin].
  split; [lia |]. split; assumption.
Qed.

(** C9.  When the decoded frame is low-res, or every index 1..255 occurs
    among the bytes scanned, the colour key is 0 and the update makes
    exactly one palette call, the one installing the 256 entries of the
    decoder's palette.  For any tick, the palette calls of an update are
    that one and, only when the key is not 0, the single-entry write of the
    subtitle colour at the key. *)
Theorem subtitle_color_written_only_for_nonzero_key
  (isFirstIntroVideo : bool) (t : Tick) (s : System) :
  (forall frame,
     decodeNextFrame t = Some frame ->
     isLowRes t = true \/ (forall j, (1 <= j <= 255)%nat -> occurs j (scanned frame)) ->
     key_of_tick t = 0%nat /\
     calls (update isFirstIntroVideo t s) =
     calls s ++ frame_calls isFirstIntroVideo t ++
     [setPalette (getPalette t) 0 256; updateScreen]) /\
  (exists new_calls,
     calls (update isFirstIntroVideo t s) = calls s ++ new_calls /\
     (setPalette (getPalette t) 0 256 ∈ new_calls) /\
     forall colors start num,
       setPalette colors start num ∈ new_calls ->
       (colors = getPalette t /\ start = 0%nat /\ num = 256%nat) \/
       (colors = subtitleColor /\ start = key_of_tick t /\ num = 1%nat /\
        key_of_tick t <> 0%nat)).
Proof.
  split.
  - intros frame Hf Hcase.
    assert (Hk : key_of_tick t = 0%nat).
    { unfold key_of_tick. rewrite Hf.
      destruct Hcase as [Hlow | Hall]; [rewrite Hlow; reflexivity |].
      destruct (isLowRes t); [reflexivity |].
      apply (find_unused_spec (scanned frame)). exact Hall. }
    split; [exact Hk |].
    rewrite calls_update. unfold palette_calls. rewrite Hk. reflexivity.
  - exists (frame_calls isFirstIntroVideo t ++ palette_calls t ++ [updateScreen]).
    split; [apply calls_update |]. split.
    + apply elem_of_app. right. apply elem_of_app. left.
      unfold palette_calls. apply elem_of_cons. left. reflexivity.
    + intros colors start num Hin.
      apply elem_of_app in Hin as [Hin | Hin].
      { exfalso. unfold frame_calls, glitch_calls in Hin.
        destruct (decodeNextFrame t); [| elem_cases Hin].
        destruct (isLowRes t); [elem_cases Hin; discriminate Hin |].
        destruct (glitch_due isFirstIntroVideo t); elem_cases Hin; discriminate Hin. }
      apply elem_of_app in Hin as [Hin | Hin];
        [| elem_cases Hin; discriminate Hin].
      unfold palette_calls in Hin.
      destruct (key_of_tick t =? 0)%nat eqn:Hk; simpl in Hin.
      * left. elem_cases Hin. injection Hin as -> -> ->. auto.
      * apply Nat.eqb_neq in Hk. elem_cases Hin.
        -- left. injection Hin as -> -> ->. auto.
        -- right. injection Hin as -> -> ->. auto.
Qed.

(** C2.  For a decoded frame of a decoder that reports low-res, the
    update copies, for every [y] with [0 <= y < h / 2], the pitch-long row
    [y] of the frame to the screen rows [2y] and [2y + 1], and leaves every
    other byte of the screen as it was: the rows from [2 * (h / 2)] on and
    the columns past the frame's pitch.  The display is reached through
    [lockScreen]/[unlockScreen] only.  The rows of the screen are taken to
    be at least as long as those of the frame, and both buffers to hold the
    rows the loop touches. *)
Theorem lowres_frame_rows_are_doubled
  (isFirstIntroVideo : bool) (t : Tick) (frame : Surface.t) (s : System) :
  decodeNextFrame t = Some frame ->
  isLowRes t = true ->
  0 <= Surface.pitch frame <= Surface.pitch (screen s) ->
  Surface.holds_rows frame (Z.quot (Surface.h frame) 2) ->
  Surface.holds_rows (screen s) (2 * Z.quot (Surface.h frame) 2) ->
  let scr' := screen (update isFirstIntroVideo t s) in
  (forall y x, 0 <= y < Z.quot (Surface.h frame) 2 -> 0 <= x < Surface.pitch frame ->
     is_Some (Surface.at_xy frame x y) /\
     Surface.at_xy scr' x (2 * y) = Surface.at_xy frame x y /\
     Surface.at_xy scr' x (2 * y + 1) = Surface.at_xy frame x y) /\
  (forall r x, 0 <= r -> 0 <= x < Surface.pitch (screen s) ->
     2 * Z.quot (Surface.h frame) 2 <= r \/ Surface.pitch frame <= x ->
     Surface.at_xy scr' x r = Surface.at_xy (screen s) x r) /\
  Surface.pitch scr' = Surface.pitch (screen s) /\
  length (Surface.pixels scr') = length (Surface.pixels (screen s)) /\
  calls (update isFirstIntroVideo t s) =
  calls s ++ [lockScreen; unlockScreen; setPalette (getPalette t) 0 256; updateScreen].
Proof.
  intros Hf Hlow Hp Hfr Hsc scr'.
  unfold scr'. rewrite (screen_update_lowres _ _ _ _ Hf Hlow).
  destruct (scale2x_spec frame (screen s) Hp Hfr Hsc)
    as (Hpitch & _ & _ & Hlen & Hrows & Hrest).
  split; [| split; [exact Hrest | split; [exact Hpitch | split; [exact Hlen |]]]].
  - intros y x Hy Hx. split; [| apply Hrows; assumption].
    unfold Surface.at_xy, Surface.getBasePtr. apply lookup_lt_is_Some.
    unfold Surface.holds_rows in Hfr.
    assert (0 <= y * Surface.pitch frame) by (apply Z.mul_nonneg_nonneg; lia).
    assert ((y + 1) * Surface.pitch frame
            <= Z.quot (Surface.h frame) 2 * Surface.pitch frame)
      by (apply Z.mul_le_mono_nonneg_r; lia).
    lia.
  - rewrite calls_update. unfold frame_calls, palette_calls, key_of_tick.
    rewrite Hf, Hlow. reflexivity.
Qed.

(** *** When the glitch patch runs *)

Lemma update_calls_eq isFirstIntroVideo t s :
  update_calls isFirstIntroVideo t s =
  frame_calls isFirstIntroVideo t ++ palette_calls t ++ [updateScreen].
Proof. unfold update_calls. rewrite calls_update. apply drop_app_length. Qed.

Lemma is_first_intro_spec video : is_first_intro video = true <-> video = "209_1M.SMK"%string.
Proof. unfold is_first_intro. apply String.eqb_eq. Qed.

Lemma glitch_due_spec video t :
  glitch_due (is_first_intro video) t = true <->
  video = "209_1M.SMK"%string /\ 956 <= getCurFrame t <= 1038.
Proof.
  unfold glitch_due. rewrite !andb_true_iff, is_first_intro_spec.
  rewrite !Z.leb_le. tauto.
Qed.

Lemma workaround_applied_iff_due isFirstIntroVideo t frame s :
  decodeNextFrame t = Some frame ->
  workaround_applied frame (update_calls isFirstIntroVideo t s) <->
  isLowRes t = false /\ glitch_due isFirstIntroVideo t = true.
Proof.
  intros Hf. rewrite update_calls_eq. unfold workaround_applied, frame_calls.
  rewrite Hf. split.
  - intros (pre & post & Heq).
    assert (Hin : copyRectToScreen
                    (Surface.getBasePtr frame (Surface.w frame - 188) 123)
                    (Surface.pitch frame) (Surface.w frame - 188) 124 188 1
                  ∈ pre ++ glitch_calls frame ++ post).
    { apply elem_of_app. right. apply elem_of_app. left.
      unfold glitch_calls. apply elem_of_cons. left. reflexivity. }
    rewrite <- Heq in Hin. clear Heq.
    destruct (isLowRes t).
    + exfalso. unfold palette_calls in Hin.
      destruct (negb (key_of_tick t =? 0)%nat); elem_cases Hin; discriminate Hin.
    + destruct (glitch_due isFirstIntroVideo t); [split; reflexivity |].
      exfalso. unfold palette_calls in Hin.
      destruct (negb (key_of_tick t =? 0)%nat); elem_cases Hin; discriminate Hin.
  - intros [Hlow Hdue]. rewrite Hlow, Hdue.
    eexists. eexists. rewrite <- app_assoc. reflexivity.
Qed.

(** C3, as the code has it.  The workaround is applied to a decoded frame
    exactly when the decoder does not report low-res, the video is
    "209_1M.SMK" and the current frame number lies in 956..1038; nothing is
    patched when no frame was decoded.  When applied, the screen is the one
    left by the subtitle renderer with four spans overwritten: row 124 by
    frame row 123 and row 125 by frame row 126 over the rightmost 188
    columns of the frame, row 126 by frame row 125 and row 127 by frame row
    128 over the leftmost 64 columns; every other byte is kept. *)
Theorem glitch_workaround_gated_and_placed
  (video : string) (t : Tick) (s : System) :
  (decodeNextFrame t = None ->
   forall frame, ~ workaround_applied frame (update_calls (is_first_intro video) t s)) /\
  (forall frame,
     decodeNextFrame t = Some frame ->
     (workaround_applied frame (update_calls (is_first_intro video) t s) <->
      isLowRes t = false /\ video = "209_1M.SMK"%string /\
      956 <= getCurFrame t <= 1038) /\
     (isLowRes t = false -> video = "209_1M.SMK"%string ->
      956 <= getCurFrame t <= 1038 ->
      let before := screen_before_patch t frame s in
      let scr' := screen (update (is_first_intro video) t s) in
      scr' = patched frame before /\
      (188 <= Surface.w frame <= Surface.pitch frame ->
       Surface.w frame <= Surface.pitch before ->
       Surface.holds_rows frame 129 ->
       Surface.holds_rows before 128 ->
       (forall x, Surface.w frame - 188 <= x < Surface.w frame ->
          Surface.at_xy scr' x 124 = Surface.at_xy frame x 123 /\
          Surface.at_xy scr' x 125 = Surface.at_xy frame x 126) /\
       (forall x, 0 <= x < 64 ->
          Surface.at_xy scr' x 126 = Surface.at_xy frame x 125 /\
          Surface.at_xy scr' x 127 = Surface.at_xy frame x 128) /\
       (forall r x, 0 <= r -> 0 <= x < Surface.pitch before ->
          ~ in_patch frame r x ->
          Surface.at_xy scr' x r = Surface.at_xy before x r)))).
Proof.
  split.
  - intros Hnone frame (pre & post & Heq).
    rewrite update_calls_eq in Heq. unfold frame_calls in Heq. rewrite Hnone in Heq.
    assert (Hin : copyRectToScreen
                    (Surface.getBasePtr frame (Surface.w frame - 188) 123)
                    (Surface.pitch frame) (Surface.w frame - 188) 124 188 1
                  ∈ pre ++ glitch_calls frame ++ post).
    { apply elem_of_app. right. apply elem_of_app. left.
      unfold glitch_calls. apply elem_of_cons. left. reflexivity. }
    rewrite <- Heq in Hin. unfold palette_calls in Hin.
    destruct (negb (key_of_tick t =? 0)%nat); elem_cases Hin; discriminate Hin.
  - intros frame Hf. split.
    + rewrite (workaround_applied_iff_due _ _ _ _ Hf), glitch_due_spec. tauto.
    + intros Hlow Hvid Hcur before scr'.
      assert (Hscr : scr' = patched frame before).
      { unfold scr', before, screen_before_patch, update, show_frame.
        rewrite Hf, Hlow.
        replace (is_first_intro video) with true
          by (symmetry; apply is_first_intro_spec; exact Hvid).
        replace ((956 <=? getCurFrame t) && (getCurFrame t <=? 1038)) with true
          by (symmetry; apply andb_true_iff; rewrite !Z.leb_le; lia).
        cbv beta iota zeta.
        destruct (negb (color_key frame =? 0)%nat); reflexivity. }
      split; [exact Hscr |].
      intros Hw Hs Hfr Hsc. rewrite Hscr.
      apply patched_spec; assumption.
Qed.

(** *** The loop and [play] *)

Lemma playVideo_loop_step isFirstIntroVideo t ticks s :
  tick_ends t = false ->
  playVideo_loop isFirstIntroVideo (t :: ticks) s =
  playVideo_loop isFirstIntroVideo ticks
    (call (delayMillis 10)
          (if needsUpdate t then update isFirstIntroVideo t s else s)).
Proof.
  unfold tick_ends. intros H.
  apply orb_false_iff in H as [H He]. apply orb_false_iff in H as [Hq Hv].
  simpl. rewrite Hq, Hv, He. reflexivity.
Qed.

(** The loop is left as soon as an iteration ends it. *)
Lemma playVideo_loop_returns isFirstIntroVideo ticks s :
  Exists (fun t => tick_ends t = true) ticks ->
  is_Some (playVideo_loop isFirstIntroVideo ticks s).
Proof.
  intros Hex. revert s. induction Hex as [t ticks Hend | t ticks _ IH]; intros s.
  - simpl. destruct (negb (shouldQuit t) && negb (endOfVideo t)) eqn:Hgo; [| eauto].
    destruct (existsb is_escape (pollEvent t)) eqn:Hesc; [eauto |].
    exfalso. unfold tick_ends in Hend. rewrite Hesc in Hend.
    apply andb_true_iff in Hgo as [Hq Hv].
    apply negb_true_iff in Hq, Hv. rewrite Hq, Hv in Hend. discriminate Hend.
  - simpl. destruct (negb (shouldQuit t) && negb (endOfVideo t)); [| eauto].
    destruct (existsb is_escape (pollEvent t)); [eauto | apply IH].
Qed.

(** C8.  When [loadFile] fails and bit 1 of [flags] is set, [play] returns
    with [_playing] true, having made no call but the zeroing of the music
    volume (when bit 0 is set) and [loadFile] itself: no subtitle load, no
    decoder close, no restoring of the volume; the screen is untouched.
    Every other call that returns leaves [_playing] false; and a call whose
    load succeeds does return, with [_playing] false, once an iteration
    ends the loop. *)
Theorem play_returns_early_on_failed_load
  (video : string) (flags : Z) (loadFile_ok isMusicMuted : bool)
  (ticks : list Tick) (m : Movie) (s : System) :
  (loadFile_ok = false -> Z.land flags 2 <> 0 ->
   play video flags loadFile_ok isMusicMuted ticks m s =
   Returned (mkMovie (_vm m) true (_decoder m) (_subtitle m))
            (mkSystem (screen s)
                      (calls s ++
                       (if Z.land flags 1 =? 0 then [] else [setMusicVolume 0]) ++
                       [decoder_loadFile video]))) /\
  (forall m' s',
     play video flags loadFile_ok isMusicMuted ticks m s = Returned m' s' ->
     ~ (loadFile_ok = false /\ Z.land flags 2 <> 0) ->
     _playing m' = false) /\
  (loadFile_ok = true ->
   Exists (fun t => tick_ends t = true) ticks ->
   exists s',
     play video flags loadFile_ok isMusicMuted ticks m s =
     Returned (mkMovie (_vm m) false (_decoder m) (_subtitle m)) s').
Proof.
  split; [| split].
  - intros -> H2. unfold play, truthy. simpl.
    replace (Z.land flags 2 =? 0) with false by (symmetry; apply Z.eqb_neq; exact H2).
    simpl. unfold set_playing, call. simpl.
    destruct (Z.land flags 1 =? 0); simpl; [reflexivity |].
    rewrite <- app_assoc. reflexivity.
  - intros m' s' Hret Hother. unfold play, truthy in Hret.
    destruct loadFile_ok; simpl in Hret.
    + destruct (playVideo _ _ _) in Hret; [| discriminate Hret].
      injection Hret as <- _. reflexivity.
    + destruct (Z.land flags 2 =? 0) eqn:H2; simpl in Hret; [discriminate Hret |].
      exfalso. apply Hother. split; [reflexivity |]. apply Z.eqb_neq. exact H2.
  - intros -> Hends. unfold play. simpl. unfold playVideo.
    destruct (playVideo_loop_returns (is_first_intro video) ticks
                (call decoder_start
                   (call (subtitle_load video)
                      (call (decoder_loadFile video)
                         (if truthy (Z.land flags 1)
                          then call (setMusicVolume 0) s else s)))) Hends)
      as [s4 ->].
    eexists. reflexivity.
Qed.

Lemma play_keeps_pointers video flags loadFile_ok isMusicMuted ticks m s m' s' :
  play video flags loadFile_ok isMusicMuted ticks m s = Returned m' s' ->
  _decoder m' = _decoder m /\ _subtitle m' = _subtitle m.
Proof.
  unfold play. destruct loadFile_ok; simpl.
  - destruct (playVideo _ _ _); [| discriminate].
    intros [= <- _]. split; reflexivity.
  - destruct (truthy (Z.land flags 2)); [| discriminate].
    intros [= <- _]. split; reflexivity.
Qed.

(** C7.  A Movie holds one decoder and one subtitle renderer: the decoder
    it was given, which is live, and the renderer it allocates, which is
    new and therefore another object.  [play] changes neither pointer, and
    destroying the Movie destroys exactly these two objects. *)
Theorem movie_owns_decoder_and_subtitle_renderer
  (vm decoder p : addr) (live : gset addr) :
  decoder ∈ live -> p ∉ live ->
  let m := fst (Movie_ctor vm decoder p live) in
  let live1 := snd (Movie_ctor vm decoder p live) in
  _decoder m = decoder /\ _subtitle m = p /\ _decoder m <> _subtitle m /\
  live1 = {[p]} ∪ live /\
  (forall video flags loadFile_ok isMusicMuted ticks s m' s',
     play video flags loadFile_ok isMusicMuted ticks m s = Returned m' s' ->
     _decoder m' = decoder /\ _subtitle m' = p) /\
  (forall m', _decoder m' = decoder -> _subtitle m' = p ->
     exists live2,
       Movie_dtor m' live1 = Some live2 /\
       (decoder ∉ live2) /\ (p ∉ live2) /\
       live2 = live ∖ {[decoder]}).
Proof.
  intros Hdec Hp m live1. simpl.
  assert (Hne : decoder <> p) by (intros ->; contradiction).
  split; [reflexivity |]. split; [reflexivity |]. split; [exact Hne |].
  split; [reflexivity |]. split.
  - intros video flags ok muted ticks s m' s' Hret.
    apply play_keeps_pointers in Hret. exact Hret.
  - intros m' Hd Hs. unfold Movie_dtor, delete, live1. simpl.
    rewrite Hd, Hs. unfold new.
    rewrite decide_True by (apply elem_of_union; right; exact Hdec).
    simpl.
    rewrite decide_True.
    2: { apply elem_of_difference. split.
         - apply elem_of_union. left. apply elem_of_singleton. reflexivity.
         - intros Hin. apply elem_of_singleton in Hin. congruence. }
    eexists. split; [reflexivity |].
    split; [| split].
    + intros Hin. apply elem_of_difference in Hin as [Hin _].
      apply elem_of_difference in Hin as [_ Hin].
      apply Hin. apply elem_of_singleton. reflexivity.
    + intros Hin. apply elem_of_difference in Hin as [_ Hin].
      apply Hin. apply elem_of_singleton. reflexivity.
    + apply set_eq. intros x.
      rewrite !elem_of_difference, elem_of_union, !elem_of_singleton.
      split.
      * intros [[[-> | Hx] Hxd] Hxp]; [contradiction |]. split; assumption.
      * intros [Hx Hxd]. split; [split; [right; exact Hx | exact Hxd] |].
        intros ->. contradiction.
Qed.

End WithSubtitleRenderer.

(** *** Concrete frames to run the model on *)

Module Demo.

(** A subtitle renderer that draws nothing. *)
Definition no_subtitles (frame : Surface.t) (frameNumber : Z) (color : nat)
  (scr : Surface.t) : Surface.t := scr.

Definition byte_of (n : nat) : byte := default Byte.x00 (Byte.of_nat n).

Definition empty_system (scr : Surface.t) : System := mkSystem scr [].

(** 2 x 2, colours 1, 2, 3 and 5. *)
Definition small_frame : Surface.t :=
  Surface.mk 2 2 2 [Byte.x01; Byte.x02; Byte.x03; Byte.x05].

Definition small_screen : Surface.t :=
  Surface.mk 2 2 2 [Byte.x00; Byte.x00; Byte.x00; Byte.x00].

Definition small_tick : Tick :=
  mkTick false false true (Some small_frame) false 7 [Byte.x10; Byte.x20; Byte.x30] [].

(** 16 x 16, every colour once. *)
Definition all_colors_frame : Surface.t :=
  Surface.mk 16 16 16 (map byte_of (seq 0 256)).

(** 16 x 16, every colour but 0, colour 1 twice. *)
Definition all_but_zero_frame : Surface.t :=
  Surface.mk 16 16 16 (map byte_of (1%nat :: seq 1 255)).

(** 3 x 5 with a pitch of 4; the screen is 4 x 6 with a pitch of 5. *)
Definition lowres_frame : Surface.t :=
  Surface.mk 3 5 4 (map byte_of (seq 1 20)).

Definition wide_screen : Surface.t :=
  Surface.mk 4 6 5 (replicate 30%nat Byte.xee).

Definition lowres_tick (curFrame : Z) : Tick :=
  mkTick false false true (Some lowres_frame) true curFrame [] [].

(** 188 x 129, row [r] filled with the byte [r]; a screen of 188 x 128. *)
Definition intro_frame : Surface.t :=
  Surface.mk 188 129 188 (concat (map (fun r => replicate 188%nat (byte_of r)) (seq 0 129))).

Definition intro_screen : Surface.t :=
  Surface.mk 188 128 188 (replicate (188 * 128)%nat Byte.xee).

Definition intro_tick (curFrame : Z) : Tick :=
  mkTick false false true (Some intro_frame) false curFrame [] [].

Definition the_end : Tick := mkTick false true false None false 0 [] [].

Definition movie : Movie := mkMovie 1%positive false 2%positive 3%positive.

Example small_frame_key : color_key small_frame = 4%nat.
Proof. reflexivity. Qed.

Example all_colors_key : color_key all_colors_frame = 0%nat.
Proof. vm_compute. reflexivity. Qed.

(** 0 does not occur in the frame, and still is not picked. *)
Example all_but_zero_key :
  (Byte.x00 ∉ Surface.pixels all_but_zero_frame) /\
  color_key all_but_zero_frame = 0%nat.
Proof.
  split; [| vm_compute; reflexivity].
  intros Hin. apply list_elem_of_In in Hin.
  change (Surface.pixels all_but_zero_frame)
    with (map byte_of (1%nat :: seq 1 255)) in Hin.
  apply in_map_iff in Hin as (n & Hn & Hin).
  assert (Hr : (1 <= n <= 255)%nat).
  { destruct Hin as [<- | Hin]; [lia |]. apply in_seq in Hin. lia. }
  unfold byte_of in Hn.
  destruct (Byte.of_nat n) as [b |] eqn:Hb.
  - simpl in Hn. subst b. apply Byte.to_of_nat in Hb. simpl in Hb. lia.
  - apply Byte.of_nat_None_iff in Hb. lia.
Qed.

Example small_update :
  calls (update no_subtitles false small_tick (empty_system small_screen)) =
  [copyRectToScreen 0 2 0 0 2 2;
   subtitle_render small_frame 7 4;
   setPalette [Byte.x10; Byte.x20; Byte.x30] 0 256;
   setPalette [Byte.xff; Byte.xff; Byte.x00] 4 1;
   updateScreen] /\
  screen (update no_subtitles false small_tick (empty_system small_screen)) =
  Surface.mk 2 2 2 [Byte.x01; Byte.x02; Byte.x03; Byte.x05].
Proof. split; reflexivity. Qed.

(** Rows 0 and 1 of the frame land on screen rows 0..3; row 2 of the frame
    and rows 4, 5 and column 4 of the screen stay out of it. *)
Example lowres_update :
  Surface.pixels
    (screen (update no_subtitles false (lowres_tick 0) (empty_system wide_screen))) =
  [Byte.x01; Byte.x02; Byte.x03; Byte.x04; Byte.xee;
   Byte.x01; Byte.x02; Byte.x03; Byte.x04; Byte.xee;
   Byte.x05; Byte.x06; Byte.x07; Byte.x08; Byte.xee;
   Byte.x05; Byte.x06; Byte.x07; Byte.x08; Byte.xee;
   Byte.xee; Byte.xee; Byte.xee; Byte.xee; Byte.xee;
   Byte.xee; Byte.xee; Byte.xee; Byte.xee; Byte.xee].
Proof. vm_compute. reflexivity. Qed.

Example play_to_the_end :
  play no_subtitles "209_1M.SMK" 1 true false [the_end] movie (empty_system small_screen) =
  Returned movie
    (mkSystem small_screen
       [setMusicVolume 0; decoder_loadFile "209_1M.SMK"; subtitle_load "209_1M.SMK";
        decoder_start; dirtyAllScreen; flushPalette true; setMusicVolume 255;
        decoder_close]).
Proof. reflexivity. Qed.

Example play_fatal :
  play no_subtitles "X.SMK" 1 false false [the_end] movie (empty_system small_screen) =
  Fatal "Unable to play video X.SMK" (mkMovie 1%positive true 2%positive 3%positive)
    (mkSystem small_screen [setMusicVolume 0; decoder_loadFile "X.SMK"]).
Proof. reflexivity. Qed.

Lemma before_patch_holds_rows (t : Tick) (frame : Surface.t) (s : System) (rows : Z) :
  Surface.holds_rows (screen s) rows ->
  Surface.holds_rows (screen_before_patch no_subtitles t frame s) rows.
Proof.
  unfold Surface.holds_rows, screen_before_patch, no_subtitles.
  destruct (blit_dims (Surface.pixels frame) (Surface.getPixels frame)
              (Surface.pitch frame) 0 0 (Surface.w frame) (Surface.h frame) (screen s))
    as [-> ->].
  tauto.
Qed.

Lemma before_patch_pitch (t : Tick) (frame : Surface.t) (s : System) :
  Surface.pitch (screen_before_patch no_subtitles t frame s) = Surface.pitch (screen s).
Proof.
  unfold screen_before_patch, no_subtitles. apply blit_dims.
Qed.

End Demo.

(** *** The theorems at concrete inputs *)

Ltac by_computation :=
  vm_compute; first [ reflexivity | discriminate | intro; discriminate ].

Lemma color_key_is_least_unused_index_witness :
  decodeNextFrame Demo.small_tick = Some Demo.small_frame /\
  isLowRes Demo.small_tick = false /\
  (1 <= color_key Demo.small_frame <= 255)%nat /\
  ~ occurs (color_key Demo.small_frame)
      (take (Z.to_nat (Surface.w Demo.small_frame * Surface.h Demo.small_frame))
            (Surface.pixels Demo.small_frame)).
Proof.
  split; [reflexivity |]. split; [reflexivity |].
  destruct (color_key_is_least_unused_index Demo.no_subtitles false
              Demo.small_tick Demo.small_frame (Demo.empty_system Demo.small_screen)
              eq_refl eq_refl)
    as (_ & _ & Hleast & _).
  - split; by_computation.
  - split; by_computation.
  - by_computation.
  - destruct Hleast as (Hr & Hfree & _); [| split; assumption].
    exists 4%nat. split; [lia |].
    intros (b & Hin & Hb). simpl in Hin.
    elem_cases Hin; subst b; discriminate Hb.
Defined.

Lemma lowres_frame_rows_are_doubled_witness :
  decodeNextFrame (Demo.lowres_tick 0) = Some Demo.lowres_frame /\
  isLowRes (Demo.lowres_tick 0) = true /\
  Surface.at_xy
    (screen (update Demo.no_subtitles false (Demo.lowres_tick 0)
               (Demo.empty_system Demo.wide_screen))) 3 (2 * 1 + 1) =
  Surface.at_xy Demo.lowres_frame 3 1 /\
  Surface.at_xy
    (screen (update Demo.no_subtitles false (Demo.lowres_tick 0)
               (Demo.empty_system Demo.wide_screen))) 4 3 =
  Surface.at_xy (screen (Demo.empty_system Demo.wide_screen)) 4 3.
Proof.
  split; [reflexivity |]. split; [reflexivity |].
  destruct (lowres_frame_rows_are_doubled Demo.no_subtitles false
              (Demo.lowres_tick 0) Demo.lowres_frame
              (Demo.empty_system Demo.wide_screen) eq_refl eq_refl)
    as (Hrows & Hrest & _).
  - split; by_computation.
  - by_computation.
  - by_computation.
  - split.
    + assert (Hy : 0 <= 1 < Z.quot (Surface.h Demo.lowres_frame) 2)
        by (split; by_computation).
      assert (Hx : 0 <= 3 < Surface.pitch Demo.lowres_frame)
        by (split; by_computation).
      exact (proj2 (proj2 (Hrows 1 3 Hy Hx))).
    + assert (Hr : 0 <= 3) by by_computation.
      assert (Hx : 0 <= 4 < Surface.pitch (screen (Demo.empty_system Demo.wide_screen)))
        by (split; by_computation).
      refine (Hrest 3 4 Hr Hx (or_intror _)). by_computation.
Defined.

(** C3 as worded lets the workaround depend on the video and the frame
    number alone.  Here the video is "209_1M.SMK" and the frame number is
    1000, the decoder reports low-res, and no patch is made: the update
    makes no [copyRectToScreen] call at all. *)
Lemma workaround_not_applied_to_lowres_frame :
  ("209_1M.SMK"%string = "209_1M.SMK"%string /\
   956 <= getCurFrame (Demo.lowres_tick 1000) <= 1038) /\
  decodeNextFrame (Demo.lowres_tick 1000) = Some Demo.lowres_frame /\
  update_calls Demo.no_subtitles (is_first_intro "209_1M.SMK") (Demo.lowres_tick 1000)
    (Demo.empty_system Demo.wide_screen) =
  [lockScreen; unlockScreen; setPalette [] 0 256; updateScreen] /\
  ~ workaround_applied Demo.lowres_frame
      (update_calls Demo.no_subtitles (is_first_intro "209_1M.SMK")
         (Demo.lowres_tick 1000) (Demo.empty_system Demo.wide_screen)).
Proof.
  split; [split; [reflexivity | split; by_computation] |].
  split; [reflexivity |]. split; [reflexivity |].
  intros Happ.
  apply (workaround_applied_iff_due Demo.no_subtitles) in Happ; [| reflexivity].
  destruct Happ as [Hlow _]. discriminate Hlow.
Qed.

Lemma glitch_workaround_gated_and_placed_witness :
  workaround_applied Demo.intro_frame
    (update_calls Demo.no_subtitles (is_first_intro "209_1M.SMK")
       (Demo.intro_tick 956) (Demo.empty_system Demo.intro_screen)) /\
  Surface.at_xy
    (screen (update Demo.no_subtitles (is_first_intro "209_1M.SMK")
               (Demo.intro_tick 956) (Demo.empty_system Demo.intro_screen))) 0 124 =
  Surface.at_xy Demo.intro_frame 0 123 /\
  Surface.at_xy
    (screen (update Demo.no_subtitles (is_first_intro "209_1M.SMK")
               (Demo.intro_tick 956) (Demo.empty_system Demo.intro_screen))) 63 127 =
  Surface.at_xy Demo.intro_frame 63 128 /\
  ~ workaround_applied Demo.intro_frame
      (update_calls Demo.no_subtitles (is_first_intro "209_1M.SMK")
         Demo.the_end (Demo.empty_system Demo.intro_screen)).
Proof.
  destruct (glitch_workaround_gated_and_placed Demo.no_subtitles "209_1M.SMK"
              (Demo.intro_tick 956) (Demo.empty_system Demo.intro_screen))
    as [_ Hsome].
  destruct (Hsome Demo.intro_frame eq_refl) as [Hiff Hpix].
  assert (Hcur : 956 <= getCurFrame (Demo.intro_tick 956) <= 1038)
    by (split; by_computation).
  split.
  { apply Hiff. split; [reflexivity |]. split; [reflexivity | exact Hcur]. }
  destruct (Hpix eq_refl eq_refl Hcur) as [_ Hplaced].
  assert (Hw : 188 <= Surface.w Demo.intro_frame <= Surface.pitch Demo.intro_frame)
    by (split; by_computation).
  assert (Hs : Surface.w Demo.intro_frame <=
               Surface.pitch (screen_before_patch Demo.no_subtitles (Demo.intro_tick 956)
                                Demo.intro_frame (Demo.empty_system Demo.intro_screen))).
  { rewrite Demo.before_patch_pitch. by_computation. }
  assert (Hfr : Surface.holds_rows Demo.intro_frame 129) by by_computation.
  assert (Hsc : Surface.holds_rows
                  (screen_before_patch Demo.no_subtitles (Demo.intro_tick 956)
                     Demo.intro_frame (Demo.empty_system Demo.intro_screen)) 128).
  { apply Demo.before_patch_holds_rows. by_computation. }
  destruct (Hplaced Hw Hs Hfr Hsc) as (Hright & Hleft & _).
  split.
  { assert (Hx : Surface.w Demo.intro_frame - 188 <= 0 < Surface.w Demo.intro_frame)
      by (split; by_computation).
    exact (proj1 (Hright 0 Hx)). }
  split.
  { assert (Hx : 0 <= 63 < 64) by (split; by_computation).
    exact (proj2 (Hleft 63 Hx)). }
  destruct (glitch_workaround_gated_and_placed Demo.no_subtitles "209_1M.SMK"
              Demo.the_end (Demo.empty_system Demo.intro_screen))
    as [Hnone _].
  apply Hnone. reflexivity.
Defined.

Lemma subtitle_color_written_only_for_nonzero_key_witness :
  key_of_tick (Demo.lowres_tick 0) = 0%nat /\
  calls (update Demo.no_subtitles false (Demo.lowres_tick 0)
           (Demo.empty_system Demo.wide_screen)) =
  calls (Demo.empty_system Demo.wide_screen) ++
  frame_calls false (Demo.lowres_tick 0) ++
  [setPalette (getPalette (Demo.lowres_tick 0)) 0 256; updateScreen].
Proof.
  destruct (subtitle_color_written_only_for_nonzero_key Demo.no_subtitles false
              (Demo.lowres_tick 0) (Demo.empty_system Demo.wide_screen))
    as [H _].
  apply (H Demo.lowres_frame eq_refl). left. reflexivity.
Defined.

Lemma play_returns_early_on_failed_load_witness :
  play Demo.no_subtitles "X.SMK" 3 false false [Demo.the_end] Demo.movie
    (Demo.empty_system Demo.small_screen) =
  Returned (mkMovie 1%positive true 2%positive 3%positive)
    (mkSystem Demo.small_screen
       ([] ++ (if Z.land 3 1 =? 0 then [] else [setMusicVolume 0]) ++
        [decoder_loadFile "X.SMK"])) /\
  _playing Demo.movie = false.
Proof.
  split.
  - destruct (play_returns_early_on_failed_load Demo.no_subtitles "X.SMK" 3 false false
                [Demo.the_end] Demo.movie (Demo.empty_system Demo.small_screen))
      as [H _].
    apply H; [reflexivity | by_computation].
  - destruct (play_returns_early_on_failed_load Demo.no_subtitles "209_1M.SMK" 1 true false
                [Demo.the_end] Demo.movie (Demo.empty_system Demo.small_screen))
      as (_ & H & _).
    apply (H Demo.movie _ Demo.play_to_the_end).
    intros [Hload _]. discriminate Hload.
Defined.

Lemma movie_owns_decoder_and_subtitle_renderer_witness :
  exists live2,
    Movie_dtor (fst (Movie_ctor 1%positive 2%positive 3%positive
                       ({[1%positive]} ∪ {[2%positive]})))
               (snd (Movie_ctor 1%positive 2%positive 3%positive
                       ({[1%positive]} ∪ {[2%positive]}))) = Some live2 /\
    (2%positive ∉ live2) /\ (3%positive ∉ live2) /\
    live2 = ({[1%positive]} ∪ {[2%positive]}) ∖ {[2%positive]}.
Proof.
  destruct (movie_owns_decoder_and_subtitle_renderer Demo.no_subtitles
              1%positive 2%positive 3%positive ({[1%positive]} ∪ {[2%positive]}))
    as (_ & _ & _ & _ & _ & Hdtor).
  - apply elem_of_union. right. apply elem_of_singleton. reflexivity.
  - intros Hin. apply elem_of_union in Hin as [Hin | Hin];
      apply elem_of_singleton in Hin; discriminate Hin.
  - apply Hdtor; reflexivity.
Defined.

(** *** Further properties of the colour key *)

(** The key of the bytes [px]. *)
Definition key_of (px : list byte) : nat := find_unused (count_colors px).

Lemma color_key_key_of frame : color_key frame = key_of (scanned frame).
Proof. reflexivity. Qed.

(** All of [1..m] among the values of [px] need [m] bytes. *)
Lemma occurs_all_length (px : list byte) (m : nat) :
  (forall k, (1 <= k <= m)%nat -> occurs k px) -> (m <= length px)%nat.
Proof.
  intros Hall.
  assert (Hsub : seq 1 m ⊆+ (Byte.to_nat <$> px)).
  { apply NoDup_submseteq; [apply NoDup_seq |].
    intros k Hk. apply elem_of_seq in Hk.
    destruct (Hall k ltac:(lia)) as (b & Hb & Hv).
    apply list_elem_of_fmap. exists b. split; [symmetry; exact Hv | exact Hb]. }
  apply submseteq_length in Hsub.
  rewrite length_seq, length_fmap in Hsub. exact Hsub.
Qed.

(** The key is fixed by which of the indices 1..255 occur. *)
Lemma key_of_ext (px px' : list byte) :
  (forall j, (1 <= j <= 255)%nat -> occurs j px <-> occurs j px') ->
  key_of px = key_of px'.
Proof.
  intros Hsame. unfold key_of.
  destruct (find_unused_spec px) as (Hmax & Hfound & Hzero).
  destruct (find_unused_spec px') as (Hmax' & Hfound' & Hzero').
  set (u := find_unused (count_colors px)) in *.
  set (u' := find_unused (count_colors px')) in *.
  destruct (decide (u = 0%nat)) as [Hu | Hu].
  - rewrite Hu. symmetry. apply Hzero'. intros j Hj.
    apply Hsame; [exact Hj |]. apply Hzero; assumption.
  - destruct (Hfound Hu) as [Hfree Hbelow].
    assert (Hu' : u' <> 0%nat).
    { intros H0. apply Hfree. apply Hsame; [lia |]. apply Hzero'; [exact H0 | lia]. }
    destruct (Hfound' Hu') as [Hfree' Hbelow'].
    destruct (lt_eq_lt_dec u u') as [[Hlt | Heq] | Hgt]; [| exact Heq |].
    + exfalso. apply Hfree. apply Hsame; [lia |]. apply Hbelow'. lia.
    + exfalso. apply Hfree'. apply Hsame; [lia |]. apply Hbelow. lia.
Qed.

(** X6.  The colour key depends only on which palette indices occur among
    the bytes scanned, not on where or how often: two frames in which the
    same indices of 1..255 occur get the same key, in particular frames
    whose scanned bytes are a rearrangement of one another. *)
Theorem color_key_depends_on_colours_only (frame frame' : Surface.t) :
  ((forall j, (1 <= j <= 255)%nat ->
      occurs j (scanned frame) <-> occurs j (scanned frame')) ->
   color_key frame = color_key frame') /\
  (scanned frame ≡ₚ scanned frame' -> color_key frame = color_key frame').
Proof.
  rewrite !color_key_key_of. split.
  - apply key_of_ext.
  - intros Hperm. apply key_of_ext. intros j _. unfold occurs.
    split; intros (b & Hb & Hv); exists b; (split; [| exact Hv]).
    + rewrite <- Hperm. exact Hb.
    + rewrite Hperm. exact Hb.
Qed.

(** X7.  A key that is found is at most one more than the number of bytes
    scanned, and no key is found only when at least 255 bytes were scanned.
    So a frame with fewer than 255 scanned bytes always gets a key, and an
    empty frame gets key 1. *)
Theorem color_key_bounded_by_frame_size (frame : Surface.t) :
  (color_key frame <> 0%nat ->
   (1 <= color_key frame <= length (scanned frame) + 1)%nat) /\
  (color_key frame = 0%nat -> (255 <= length (scanned frame))%nat) /\
  (scanned frame = [] -> color_key frame = 1%nat).
Proof.
  rewrite color_key_key_of. unfold key_of.
  destruct (find_unused_spec (scanned frame)) as (Hmax & Hfound & Hzero).
  set (u := find_unused (count_colors (scanned frame))) in *.
  assert (Hnz : u <> 0%nat -> (1 <= u <= length (scanned frame) + 1)%nat).
  { intros Hu. destruct (Hfound Hu) as [_ Hbelow].
    pose proof (occurs_all_length (scanned frame) (u - 1)) as Hlen.
    assert ((u - 1 <= length (scanned frame))%nat).
    { apply Hlen. intros k Hk. apply Hbelow. lia. }
    lia. }
  assert (Hz : u = 0%nat -> (255 <= length (scanned frame))%nat).
  { intros Hu. apply occurs_all_length. apply Hzero. exact Hu. }
  split; [exact Hnz |]. split; [exact Hz |].
  intros Hnil. rewrite Hnil in Hnz, Hz. simpl in Hnz, Hz.
  destruct (decide (u = 0%nat)) as [Hu | Hu]; [specialize (Hz Hu); lia |].
  specialize (Hnz Hu). lia.
Qed.

(** X8.  Using more colours never lowers the key: when every index that
    occurs in one frame occurs in another, the other frame has no key or a
    key that is at least as large. *)
Theorem color_key_monotone (frame frame' : Surface.t) :
  (forall j, (1 <= j <= 255)%nat ->
     occurs j (scanned frame) -> occurs j (scanned frame')) ->
  color_key frame' = 0%nat \/
  (color_key frame <> 0%nat /\ (color_key frame <= color_key frame')%nat).
Proof.
  intros Hsub. rewrite !color_key_key_of. unfold key_of.
  destruct (find_unused_spec (scanned frame)) as (Hmax & Hfound & Hzero).
  destruct (find_unused_spec (scanned frame')) as (Hmax' & Hfound' & Hzero').
  set (u := find_unused (count_colors (scanned frame))) in *.
  set (u' := find_unused (count_colors (scanned frame'))) in *.
  destruct (decide (u' = 0%nat)) as [Hu' | Hu']; [left; exact Hu' | right].
  destruct (Hfound' Hu') as [Hfree' _].
  assert (Hu : u <> 0%nat).
  { intros H0. apply Hfree'. apply Hsub; [lia |]. apply Hzero; [exact H0 | lia]. }
  split; [exact Hu |].
  destruct (Hfound Hu) as [_ Hbelow].
  destruct (le_lt_dec u u') as [Hle | Hlt]; [exact Hle |].
  exfalso. apply Hfree'. apply Hsub; [lia |]. apply Hbelow. lia.
Qed.

(** 2 x 2, the bytes of [Demo.small_frame] in reverse order. *)
Definition small_frame_reversed : Surface.t :=
  Surface.mk 2 2 2 [Byte.x05; Byte.x03; Byte.x02; Byte.x01].

(** 3 x 2, the colours of [Demo.small_frame], two of them twice. *)
Definition small_frame_repeated : Surface.t :=
  Surface.mk 3 2 3 [Byte.x01; Byte.x01; Byte.x02; Byte.x03; Byte.x05; Byte.x05].

(** 3 x 2, the colours of [Demo.small_frame] and colour 4. *)
Definition richer_frame : Surface.t :=
  Surface.mk 3 2 3 [Byte.x01; Byte.x04; Byte.x02; Byte.x03; Byte.x05; Byte.x05].

Definition empty_frame : Surface.t := Surface.mk 0 0 0 [].

(** Membership in a list that is written out. *)
Ltac elem_here := apply list_elem_of_In; simpl; tauto.

Lemma small_frame_colours j :
  occurs j (scanned Demo.small_frame) <->
  j = 1%nat \/ j = 2%nat \/ j = 3%nat \/ j = 5%nat.
Proof.
  change (scanned Demo.small_frame) with [Byte.x01; Byte.x02; Byte.x03; Byte.x05].
  split.
  - intros (b & Hin & Hv). elem_cases Hin; subst b; simpl in Hv; lia.
  - intros [-> | [-> | [-> | ->]]];
      [exists Byte.x01 | exists Byte.x02 | exists Byte.x03 | exists Byte.x05];
      (split; [elem_here | reflexivity]).
Defined.

Lemma small_frame_repeated_colours j :
  occurs j (scanned small_frame_repeated) <->
  j = 1%nat \/ j = 2%nat \/ j = 3%nat \/ j = 5%nat.
Proof.
  change (scanned small_frame_repeated)
    with [Byte.x01; Byte.x01; Byte.x02; Byte.x03; Byte.x05; Byte.x05].
  split.
  - intros (b & Hin & Hv). elem_cases Hin; subst b; simpl in Hv; lia.
  - intros [-> | [-> | [-> | ->]]];
      [exists Byte.x01 | exists Byte.x02 | exists Byte.x03 | exists Byte.x05];
      (split; [elem_here | reflexivity]).
Defined.

Lemma richer_frame_colours j :
  j = 1%nat \/ j = 2%nat \/ j = 3%nat \/ j = 5%nat ->
  occurs j (scanned richer_frame).
Proof.
  change (scanned richer_frame)
    with [Byte.x01; Byte.x04; Byte.x02; Byte.x03; Byte.x05; Byte.x05].
  intros [-> | [-> | [-> | ->]]];
    [exists Byte.x01 | exists Byte.x02 | exists Byte.x03 | exists Byte.x05];
    (split; [elem_here | reflexivity]).
Defined.

Lemma color_key_depends_on_colours_only_witness :
  color_key Demo.small_frame = color_key small_frame_repeated /\
  color_key Demo.small_frame = color_key small_frame_reversed.
Proof.
  split.
  - apply (proj1 (color_key_depends_on_colours_only
                    Demo.small_frame small_frame_repeated)).
    intros j _. rewrite small_frame_colours, small_frame_repeated_colours. tauto.
  - apply (proj2 (color_key_depends_on_colours_only
                    Demo.small_frame small_frame_reversed)).
    change (scanned Demo.small_frame)
      with (reverse [Byte.x05; Byte.x03; Byte.x02; Byte.x01]).
    change (scanned small_frame_reversed) with [Byte.x05; Byte.x03; Byte.x02; Byte.x01].
    apply reverse_Permutation.
Defined.

Lemma color_key_bounded_by_frame_size_witness :
  (1 <= color_key Demo.small_frame <= length (scanned Demo.small_frame) + 1)%nat /\
  (255 <= length (scanned Demo.all_colors_frame))%nat /\
  color_key empty_frame = 1%nat.
Proof.
  split; [| split].
  - apply (proj1 (color_key_bounded_by_frame_size Demo.small_frame)).
    by_computation.
  - apply (proj1 (proj2 (color_key_bounded_by_frame_size Demo.all_colors_frame))).
    by_computation.
  - apply (proj2 (proj2 (color_key_bounded_by_frame_size empty_frame))).
    reflexivity.
Defined.

Lemma color_key_monotone_witness :
  color_key richer_frame = 0%nat \/
  (color_key Demo.small_frame <> 0%nat /\
   (color_key Demo.small_frame <= color_key richer_frame)%nat).
Proof.
  apply (color_key_monotone Demo.small_frame richer_frame).
  intros j _ Hj. apply richer_frame_colours. apply small_frame_colours. exact Hj.
Defined.

(** *** Further properties of the playback loop *)

(** The calls the loop of [playVideo] makes between starting the decoder
    and marking the screen dirty: drawing, palette, screen update, delay. *)
Definition in_loop_call (c : Call) : Prop :=
  match c with
  | lockScreen | unlockScreen | copyRectToScreen _ _ _ _ _ _
  | subtitle_render _ _ _ | setPalette _ _ _ | updateScreen | delayMillis _ => True
  | _ => False
  end.


(** The calls of an iteration on a low-res frame. *)
Definition lowres_call (c : Call) : Prop :=
  match c with
  | lockScreen | unlockScreen | updateScreen => True
  | setPalette _ start num => start = 0%nat /\ num = 256%nat
  | delayMillis msecs => msecs = 10
  | _ => False
  end.

(** A copy to the screen is one of a whole frame: from the start of the
    frame buffer to the top left corner. *)
Definition whole_frame_copy (c : Call) : Prop :=
  match c with
  | copyRectToScreen buf _ x y _ _ => buf = 0 /\ x = 0 /\ y = 0
  | _ => True
  end.

Definition mute_calls (flags : Z) : list Call :=
  if truthy (Z.land flags 1) then [setMusicVolume 0] else [].

Definition restore_calls (flags : Z) (isMusicMuted : bool) : list Call :=
  if truthy (Z.land flags 1)
  then [setMusicVolume (if isMusicMuted then 0 else 255)]
  else [].

Section MoreOnPlayback.

Variable render_on_screen : Surface.t -> Z -> nat -> Surface.t -> Surface.t.

(** The calls of a loop that returns: those of the iterations, then
    [dirtyAllScreen]; a property of the calls of every update and of the
    delay is one of all the calls of the iterations. *)
Lemma loop_calls (P : Call -> Prop) isFirstIntroVideo ticks :
  forall s s',
    playVideo_loop render_on_screen isFirstIntroVideo ticks s = Some s' ->
    P (delayMillis 10) ->
    (forall t, t ∈ ticks -> needsUpdate t = true ->
       Forall P (frame_calls isFirstIntroVideo t ++ palette_calls t ++ [updateScreen])) ->
    exists mid, calls s' = calls s ++ mid ++ [dirtyAllScreen] /\ Forall P mid.
Proof.
  induction ticks as [| t ticks IH]; intros s s' Hrun Hdelay Hupd; [discriminate Hrun |].
  simpl in Hrun.
  destruct (negb (shouldQuit t) && negb (endOfVideo t)).
  - assert (Hs1 : exists U,
              calls (if needsUpdate t
                     then update render_on_screen isFirstIntroVideo t s else s)
              = calls s ++ U /\ Forall P U).
    { destruct (needsUpdate t) eqn:Hn.
      - eexists. split; [apply calls_update |].
        apply Hupd; [apply elem_of_cons; left; reflexivity | exact Hn].
      - exists []. split; [rewrite app_nil_r; reflexivity | constructor]. }
    destruct Hs1 as (U & HU & HPU).
    destruct (existsb is_escape (pollEvent t)).
    + injection Hrun as <-. exists U. split; [| exact HPU].
      simpl. rewrite HU, <- app_assoc. reflexivity.
    + apply IH in Hrun; [| exact Hdelay |].
      * destruct Hrun as (mid & Hmid & HPmid).
        exists (U ++ [delayMillis 10] ++ mid). split.
        -- rewrite Hmid. simpl. rewrite HU. rewrite <- !app_assoc. reflexivity.
        -- apply Forall_app. split; [exact HPU |].
           apply Forall_cons. split; assumption.
      * intros t' Ht'. apply Hupd. apply elem_of_cons. right. exact Ht'.
  - injection Hrun as <-. exists []. split; [reflexivity | constructor].
Qed.

Lemma update_calls_in_loop isFirstIntroVideo t :
  Forall in_loop_call
    (frame_calls isFirstIntroVideo t ++ palette_calls t ++ [updateScreen]).
Proof.
  unfold frame_calls, palette_calls, glitch_calls.
  destruct (decodeNextFrame t); [destruct (isLowRes t) |];
    try destruct (glitch_due isFirstIntroVideo t);
    destruct (negb (key_of_tick t =? 0)%nat); simpl;
    repeat (apply Forall_cons; split; [exact I |]); constructor.
Qed.

(** The calls of a [play] whose load succeeds and that returns. *)
Lemma play_success_calls (P : Call -> Prop) video flags isMusicMuted ticks m s m' s' :
  play render_on_screen video flags true isMusicMuted ticks m s = Returned m' s' ->
  P (delayMillis 10) ->
  (forall t, t ∈ ticks -> needsUpdate t = true ->
     Forall P (frame_calls (is_first_intro video) t ++ palette_calls t ++ [updateScreen])) ->
  exists mid,
    calls s' =
    calls s ++ mute_calls flags ++
    [decoder_loadFile video; subtitle_load video; decoder_start] ++ mid ++
    [dirtyAllScreen; flushPalette true] ++ restore_calls flags isMusicMuted ++
    [decoder_close] /\
    Forall P mid.
Proof.
  intros Hret Hdelay Hupd. unfold play in Hret. simpl in Hret.
  unfold playVideo in Hret.
  destruct (playVideo_loop _ _ _ _) as [s4 |] eqn:Hloop; [| discriminate Hret].
  injection Hret as _ <-.
  destruct (loop_calls P _ _ _ _ Hloop Hdelay Hupd) as (mid & Hmid & HP).
  exists mid. split; [| exact HP].
  unfold mute_calls, restore_calls.
  destruct (truthy (Z.land flags 1)); simpl; rewrite Hmid; simpl;
    rewrite <- !app_assoc; reflexivity.
Qed.

(** X9.  A [playVideo] that returns has started the decoder first and
    exactly once and has marked the whole screen dirty last and exactly
    once; every call in between is a drawing, palette, screen-update or
    delay call.  It never loads or closes a file, loads subtitles, flushes
    the palette or touches the music volume. *)
Theorem playVideo_brackets_the_display_calls
  (isFirstIntroVideo : bool) (ticks : list Tick) (s s' : System) :
  playVideo render_on_screen isFirstIntroVideo ticks s = Some s' ->
  exists mid,
    calls s' = calls s ++ [decoder_start] ++ mid ++ [dirtyAllScreen] /\
    Forall in_loop_call mid.
Proof.
  intros Hrun. unfold playVideo in Hrun.
  destruct (loop_calls in_loop_call _ _ _ _ Hrun I
              (fun t _ _ => update_calls_in_loop isFirstIntroVideo t))
    as (mid & Hmid & HP).
  exists mid. split; [| exact HP].
  rewrite Hmid. simpl. rewrite <- app_assoc. reflexivity.
Qed.

(** X10.  The loop stops at the first iteration that ends it: the answers
    the host would give afterwards have no influence.  When the host asks to
    quit or the video is over on entry, nothing is decoded or drawn and no
    delay is made, also when a frame is due; the calls are [decoder_start]
    and [dirtyAllScreen] alone. *)
Theorem loop_stops_at_first_ending_tick
  (isFirstIntroVideo : bool) (t : Tick) :
  tick_ends t = true ->
  (forall pre post s,
     playVideo_loop render_on_screen isFirstIntroVideo (pre ++ t :: post) s =
     playVideo_loop render_on_screen isFirstIntroVideo (pre ++ [t]) s) /\
  (shouldQuit t || endOfVideo t = true ->
   forall post s,
     playVideo render_on_screen isFirstIntroVideo (t :: post) s =
     Some (mkSystem (screen s) (calls s ++ [decoder_start; dirtyAllScreen]))).
Proof.
  intros Hend. split.
  - induction pre as [| t0 pre IH]; intros post s; simpl.
    + destruct (negb (shouldQuit t) && negb (endOfVideo t)) eqn:Hgo; [| reflexivity].
      destruct (existsb is_escape (pollEvent t)) eqn:Hesc; [reflexivity |].
      exfalso. unfold tick_ends in Hend. rewrite Hesc in Hend.
      apply andb_true_iff in Hgo as [Hq Hv].
      apply negb_true_iff in Hq, Hv. rewrite Hq, Hv in Hend. discriminate Hend.
    + destruct (negb (shouldQuit t0) && negb (endOfVideo t0)); [| reflexivity].
      destruct (existsb is_escape (pollEvent t0)); [reflexivity | apply IH].
  - intros Hstop post s. unfold playVideo. simpl.
    replace (negb (shouldQuit t) && negb (endOfVideo t)) with false.
    + unfold call. simpl. rewrite <- app_assoc. reflexivity.
    + symmetry. rewrite <- negb_orb. apply negb_false_iff. exact Hstop.
Qed.


(** X12.  Playing any video other than "209_1M.SMK" never applies the
    workaround, whatever the frame numbers: every copy to the screen made
    during a [play] that returns is one of a whole frame to the top left
    corner. *)
Theorem other_videos_are_never_patched
  (video : string) (flags : Z) (loadFile_ok isMusicMuted : bool)
  (ticks : list Tick) (m m' : Movie) (s s' : System) :
  video <> "209_1M.SMK"%string ->
  play render_on_screen video flags loadFile_ok isMusicMuted ticks m s = Returned m' s' ->
  exists new, calls s' = calls s ++ new /\ Forall whole_frame_copy new.
Proof.
  intros Hvid Hret.
  assert (Hfirst : is_first_intro video = false).
  { destruct (is_first_intro video) eqn:H; [| reflexivity].
    apply is_first_intro_spec in H. contradiction. }
  destruct loadFile_ok.
  - destruct (play_success_calls whole_frame_copy _ _ _ _ _ _ _ _ Hret I)
      as (mid & Hmid & HP).
    + intros t _ _. rewrite Hfirst. unfold frame_calls, palette_calls, glitch_due.
      simpl.
      destruct (decodeNextFrame t); [destruct (isLowRes t) |];
        destruct (negb (key_of_tick t =? 0)%nat); simpl;
        repeat (apply Forall_cons; split; [simpl; auto |]); constructor.
    + eexists. split; [exact Hmid |].
      unfold mute_calls, restore_calls.
      destruct (truthy (Z.land flags 1)); simpl;
        repeat (apply Forall_cons; split; [exact I |]);
        (apply Forall_app; split; [exact HP |]);
        repeat (apply Forall_cons; split; [exact I |]); constructor.
  - unfold play in Hret. simpl in Hret.
    destruct (truthy (Z.land flags 2)); [| discriminate Hret].
    injection Hret as _ <-.
    destruct (truthy (Z.land flags 1)); simpl.
    + exists [setMusicVolume 0; decoder_loadFile video].
      split; [rewrite <- app_assoc; reflexivity |].
      repeat (apply Forall_cons; split; [exact I |]). constructor.
    + exists [decoder_loadFile video]. split; [reflexivity |].
      repeat (apply Forall_cons; split; [exact I |]). constructor.
Qed.

(** X13.  A [play] whose load succeeds and that returns makes its calls in
    this order: the zeroing of the music volume when bit 0 of [flags] is
    set; [loadFile], the subtitle load and the decoder start; the calls of
    the loop; [dirtyAllScreen] and [flushPalette(true)]; the restoring of
    the music volume, to 0 when music is muted and to 255 otherwise, when
    bit 0 is set; the decoder close.  With bit 0 clear the music volume is
    not touched at all. *)
Theorem play_call_sequence
  (video : string) (flags : Z) (isMusicMuted : bool)
  (ticks : list Tick) (m m' : Movie) (s s' : System) :
  play render_on_screen video flags true isMusicMuted ticks m s = Returned m' s' ->
  exists mid,
    calls s' =
    calls s ++ mute_calls flags ++
    [decoder_loadFile video; subtitle_load video; decoder_start] ++ mid ++
    [dirtyAllScreen; flushPalette true] ++ restore_calls flags isMusicMuted ++
    [decoder_close] /\
    Forall in_loop_call mid /\
    (Z.land flags 1 = 0 ->
     mute_calls flags = [] /\ restore_calls flags isMusicMuted = []) /\
    (Z.land flags 1 <> 0 ->
     mute_calls flags = [setMusicVolume 0] /\
     restore_calls flags isMusicMuted =
     [setMusicVolume (if isMusicMuted then 0 else 255)]).
Proof.
  intros Hret.
  destruct (play_success_calls in_loop_call _ _ _ _ _ _ _ _ Hret I
              (fun t _ _ => update_calls_in_loop (is_first_intro video) t))
    as (mid & Hmid & HP).
  exists mid. split; [exact Hmid |]. split; [exact HP |].
  unfold mute_calls, restore_calls, truthy. split.
  - intros ->. split; reflexivity.
  - intros Hne. apply Z.eqb_neq in Hne. rewrite Hne. split; reflexivity.
Qed.

(** X14.  While the decoder reports low-res, no subtitles are drawn: a loop
    all of whose frames are low-res makes no [subtitle_render] call, no copy
    to the screen and no write of the subtitle colour; the screen is reached
    through [lockScreen]/[unlockScreen] only and every palette call installs
    the 256 entries of the decoder. *)
Theorem lowres_video_gets_no_subtitles
  (isFirstIntroVideo : bool) (ticks : list Tick) (s s' : System) :
  Forall (fun t => isLowRes t = true) ticks ->
  playVideo render_on_screen isFirstIntroVideo ticks s = Some s' ->
  exists mid,
    calls s' = calls s ++ [decoder_start] ++ mid ++ [dirtyAllScreen] /\
    Forall lowres_call mid.
Proof.
  intros Hlow Hrun. unfold playVideo in Hrun.
  destruct (loop_calls lowres_call _ _ _ _ Hrun eq_refl) as (mid & Hmid & HP).
  - intros t Hin _. rewrite Forall_forall in Hlow. specialize (Hlow t Hin).
    unfold frame_calls, palette_calls, key_of_tick. rewrite Hlow.
    destruct (decodeNextFrame t); simpl;
      repeat (apply Forall_cons; split; [simpl; auto |]); constructor.
  - exists mid. split; [| exact HP].
    rewrite Hmid. simpl. rewrite <- app_assoc. reflexivity.
Qed.

(** X15.  [play] stops the program with an error exactly when the load
    fails and bit 1 of [flags] is clear.  The message names the video,
    [_playing] is true at that point, and the only calls made are the
    zeroing of the music volume (when bit 0 is set) and [loadFile]: the
    music volume is not restored. *)
Theorem play_stops_with_error_iff_load_fails
  (video : string) (flags : Z) (loadFile_ok isMusicMuted : bool)
  (ticks : list Tick) (m : Movie) (s : System) :
  (loadFile_ok = false -> Z.land flags 2 = 0 ->
   play render_on_screen video flags loadFile_ok isMusicMuted ticks m s =
   Fatal ("Unable to play video " ++ video)
         (mkMovie (_vm m) true (_decoder m) (_subtitle m))
         (mkSystem (screen s)
                   (calls s ++ mute_calls flags ++ [decoder_loadFile video]))) /\
  (forall message m' s',
     play render_on_screen video flags loadFile_ok isMusicMuted ticks m s =
     Fatal message m' s' ->
     loadFile_ok = false /\ Z.land flags 2 = 0).
Proof.
  split.
  - intros -> H2. unfold play, truthy, mute_calls, truthy. simpl.
    rewrite H2. simpl. unfold set_playing, call. simpl.
    destruct (negb (Z.land flags 1 =? 0)); simpl; [| reflexivity].
    rewrite <- app_assoc. reflexivity.
  - intros message m' s' Hfatal. unfold play, truthy in Hfatal.
    destruct loadFile_ok; simpl in Hfatal.
    + destruct (playVideo _ _ _ _) in Hfatal; discriminate Hfatal.
    + split; [reflexivity |].
      destruct (Z.land flags 2 =? 0) eqn:H2; simpl in Hfatal; [| discriminate Hfatal].
      apply Z.eqb_eq. exact H2.
Qed.

End MoreOnPlayback.

(** *** The further properties at concrete inputs *)

(** No frame is due and nothing ends the loop. *)
Definition idle_tick : Tick := mkTick false false false None false 0 [] [].

(** A frame of another video with a frame number in 956..1038. *)
Definition other_tick : Tick :=
  mkTick false false true (Some Demo.small_frame) false 1000 [] [].

(** A low-res decoder at the end of its video. *)
Definition lowres_end : Tick := mkTick false true false None true 0 [] [].

(** The system a run leaves, [s] when it does not return. *)
Definition system_after (run : option System) (s : System) : System :=
  default s run.

Definition system_returned (o : Outcome) (s : System) : System :=
  match o with Returned _ s' => s' | _ => s end.

Lemma playVideo_brackets_the_display_calls_witness :
  exists mid,
    calls (system_after
             (playVideo Demo.no_subtitles false [Demo.small_tick; Demo.the_end]
                (Demo.empty_system Demo.small_screen))
             (Demo.empty_system Demo.small_screen)) =
    calls (Demo.empty_system Demo.small_screen) ++
    [decoder_start] ++ mid ++ [dirtyAllScreen] /\
    Forall in_loop_call mid.
Proof.
  apply (playVideo_brackets_the_display_calls Demo.no_subtitles false
           [Demo.small_tick; Demo.the_end]).
  reflexivity.
Defined.

Lemma loop_stops_at_first_ending_tick_witness :
  playVideo_loop Demo.no_subtitles false
    ([idle_tick] ++ Demo.the_end :: [Demo.small_tick])
    (Demo.empty_system Demo.small_screen) =
  playVideo_loop Demo.no_subtitles false ([idle_tick] ++ [Demo.the_end])
    (Demo.empty_system Demo.small_screen) /\
  playVideo Demo.no_subtitles false (Demo.the_end :: [Demo.small_tick])
    (Demo.empty_system Demo.small_screen) =
  Some (mkSystem (screen (Demo.empty_system Demo.small_screen))
          (calls (Demo.empty_system Demo.small_screen) ++
           [decoder_start; dirtyAllScreen])).
Proof.
  destruct (loop_stops_at_first_ending_tick Demo.no_subtitles false Demo.the_end eq_refl)
    as [Hprefix Hstop].
  split.
  - apply Hprefix.
  - apply Hstop. reflexivity.
Defined.


Lemma other_videos_are_never_patched_witness :
  exists new,
    calls (system_returned
             (play Demo.no_subtitles "209_1m.smk" 0 true false
                [other_tick; Demo.the_end] Demo.movie
                (Demo.empty_system Demo.small_screen))
             (Demo.empty_system Demo.small_screen)) =
    calls (Demo.empty_system Demo.small_screen) ++ new /\
    Forall whole_frame_copy new.
Proof.
  apply (other_videos_are_never_patched Demo.no_subtitles "209_1m.smk" 0 true false
           [other_tick; Demo.the_end] Demo.movie Demo.movie).
  - discriminate.
  - reflexivity.
Defined.

Lemma play_call_sequence_witness :
  exists mid,
    calls (system_returned
             (play Demo.no_subtitles "X.SMK" 1 true true
                [Demo.small_tick; Demo.the_end] Demo.movie
                (Demo.empty_system Demo.small_screen))
             (Demo.empty_system Demo.small_screen)) =
    calls (Demo.empty_system Demo.small_screen) ++ mute_calls 1 ++
    [decoder_loadFile "X.SMK"; subtitle_load "X.SMK"; decoder_start] ++ mid ++
    [dirtyAllScreen; flushPalette true] ++ restore_calls 1 true ++ [decoder_close] /\
    Forall in_loop_call mid /\
    (Z.land 1 1 = 0 -> mute_calls 1 = [] /\ restore_calls 1 true = []) /\
    (Z.land 1 1 <> 0 ->
     mute_calls 1 = [setMusicVolume 0] /\
     restore_calls 1 true = [setMusicVolume (if true then 0 else 255)]).
Proof.
  apply (play_call_sequence Demo.no_subtitles "X.SMK" 1 true
           [Demo.small_tick; Demo.the_end] Demo.movie Demo.movie).
  reflexivity.
Defined.

Lemma lowres_video_gets_no_subtitles_witness :
  exists mid,
    calls (system_after
             (playVideo Demo.no_subtitles true [Demo.lowres_tick 1000; lowres_end]
                (Demo.empty_system Demo.wide_screen))
             (Demo.empty_system Demo.wide_screen)) =
    calls (Demo.empty_system Demo.wide_screen) ++
    [decoder_start] ++ mid ++ [dirtyAllScreen] /\
    Forall lowres_call mid.
Proof.
  apply (lowres_video_gets_no_subtitles Demo.no_subtitles true
           [Demo.lowres_tick 1000; lowres_end]).
  - repeat (apply Forall_cons; split; [reflexivity |]). constructor.
  - reflexivity.
Defined.

Lemma play_stops_with_error_iff_load_fails_witness :
  play Demo.no_subtitles "X.SMK" 1 false true [Demo.the_end] Demo.movie
    (Demo.empty_system Demo.small_screen) =
  Fatal ("Unable to play video " ++ "X.SMK")
        (mkMovie (_vm Demo.movie) true (_decoder Demo.movie) (_subtitle Demo.movie))
        (mkSystem (screen (Demo.empty_system Demo.small_screen))
                  (calls (Demo.empty_system Demo.small_screen) ++ mute_calls 1 ++
                   [decoder_loadFile "X.SMK"])) /\
  (false = false /\ Z.land 1 2 = 0).
Proof.
  destruct (play_stops_with_error_iff_load_fails Demo.no_subtitles "X.SMK" 1
              false true [Demo.the_end] Demo.movie
              (Demo.empty_system Demo.small_screen)) as [Hfatal Honly].
  split.
  - apply Hfatal; reflexivity.
  - apply (Honly _ _ _ (Hfatal eq_refl eq_refl)).
Defined.

(** *** Further properties of the pixel operations and of ownership *)

Lemma surface_eq (a b : Surface.t) :
  Surface.w a = Surface.w b -> Surface.h a = Surface.h b ->
  Surface.pitch a = Surface.pitch b -> Surface.pixels a = Surface.pixels b ->
  a = b.
Proof. destruct a, b. simpl. intros -> -> -> ->. reflexivity. Qed.

(** X16.  Scaling the same low-res frame onto the screen again changes
    nothing: the 2x scale-up overwrites what it wrote with the same bytes
    and reads nothing from the screen.  (The rows of the screen are at
    least as long as those of the frame and not empty, and both buffers
    hold the rows the loop touches.) *)
Theorem scale2x_idempotent (frame scr : Surface.t) :
  0 <= Surface.pitch frame <= Surface.pitch scr ->
  0 < Surface.pitch scr ->
  Surface.holds_rows frame (Z.quot (Surface.h frame) 2) ->
  Surface.holds_rows scr (2 * Z.quot (Surface.h frame) 2) ->
  scale2x frame (scale2x frame scr) = scale2x frame scr.
Proof.
  intros Hp Hpos Hfr Hsc.
  destruct (scale2x_spec frame scr Hp Hfr Hsc)
    as (HpA & HwA & HhA & HlA & HrowsA & HrestA).
  set (A := scale2x frame scr) in *.
  assert (HpA' : 0 <= Surface.pitch frame <= Surface.pitch A) by (rewrite HpA; exact Hp).
  assert (HscA : Surface.holds_rows A (2 * Z.quot (Surface.h frame) 2)).
  { unfold Surface.holds_rows in *. rewrite HpA, HlA. exact Hsc. }
  destruct (scale2x_spec frame A HpA' Hfr HscA)
    as (HpB & HwB & HhB & HlB & HrowsB & HrestB).
  set (B := scale2x frame A) in *.
  apply surface_eq; [exact HwB | exact HhB | exact HpB |].
  apply list_eq. intros i.
  set (sp := Surface.pitch scr) in *.
  pose proof (Z.div_mod (Z.of_nat i) sp ltac:(lia)) as Hdm.
  pose proof (Z.mod_pos_bound (Z.of_nat i) sp Hpos) as Hx.
  assert (Hr : 0 <= Z.of_nat i / sp) by (apply Z.div_pos; lia).
  set (r := Z.of_nat i / sp) in *. set (x := Z.of_nat i mod sp) in *.
  assert (HiA : Surface.pixels A !! i = Surface.at_xy A x r).
  { unfold Surface.at_xy, Surface.getBasePtr. rewrite HpA. fold sp. f_equal. lia. }
  assert (HiB : Surface.pixels B !! i = Surface.at_xy B x r).
  { unfold Surface.at_xy, Surface.getBasePtr. rewrite HpB, HpA. fold sp. f_equal. lia. }
  rewrite HiA, HiB.
  destruct (Z_lt_le_dec r (2 * Z.quot (Surface.h frame) 2)) as [Hin | Hout].
  - destruct (Z_lt_le_dec x (Surface.pitch frame)) as [Hxin | Hxout].
    + pose proof (Z.div_mod r 2 ltac:(lia)) as Hr2.
      pose proof (Z.mod_pos_bound r 2 ltac:(lia)) as Hm2.
      assert (Hy : 0 <= r / 2 < Z.quot (Surface.h frame) 2).
      { split; [apply Z.div_pos; lia | apply Z.div_lt_upper_bound; lia]. }
      destruct (HrowsA (r / 2) x Hy ltac:(lia)) as [HA0 HA1].
      destruct (HrowsB (r / 2) x Hy ltac:(lia)) as [HB0 HB1].
      destruct (Z.eq_dec (r mod 2) 0) as [H0 | H1].
      * replace r with (2 * (r / 2)) by lia. rewrite HA0, HB0. reflexivity.
      * replace r with (2 * (r / 2) + 1) by lia. rewrite HA1, HB1. reflexivity.
    + apply HrestB; [lia | rewrite HpA; fold sp; lia | right; lia].
  - apply HrestB; [lia | rewrite HpA; fold sp; lia | left; lia].
Qed.

Lemma scale2x_idempotent_witness :
  scale2x Demo.lowres_frame (scale2x Demo.lowres_frame Demo.wide_screen) =
  scale2x Demo.lowres_frame Demo.wide_screen.
Proof.
  apply (scale2x_idempotent Demo.lowres_frame Demo.wide_screen).
  - split; by_computation.
  - by_computation.
  - by_computation.
  - by_computation.
Defined.

(** X17.  A decoder belongs to one Movie.  When two Movies are built on the
    same decoder, destroying the first destroys the decoder, and destroying
    the second then deletes an object that is no longer live, which has no
    defined result; the same holds for destroying one Movie twice. *)
Theorem decoder_cannot_be_shared
  (vm decoder p1 p2 : addr) (live : gset addr) :
  decoder ∈ live -> p1 ∉ live -> p2 ∉ live -> p1 <> p2 ->
  let m1 := fst (Movie_ctor vm decoder p1 live) in
  let live1 := snd (Movie_ctor vm decoder p1 live) in
  let m2 := fst (Movie_ctor vm decoder p2 live1) in
  let live2 := snd (Movie_ctor vm decoder p2 live1) in
  exists live3,
    Movie_dtor m1 live2 = Some live3 /\
    (decoder ∉ live3) /\ (p1 ∉ live3) /\ (p2 ∈ live3) /\
    Movie_dtor m2 live3 = None /\
    Movie_dtor m1 live3 = None.
Proof.
  intros Hdec Hp1 Hp2 Hne m1 live1 m2 live2.
  assert (Hd1 : decoder <> p1) by (intros ->; contradiction).
  assert (Hd2 : decoder <> p2) by (intros ->; contradiction).
  unfold Movie_dtor, delete, m1, m2, live2, live1, Movie_ctor, new. simpl.
  rewrite decide_True
    by (rewrite !elem_of_union, !elem_of_singleton; tauto).
  simpl.
  rewrite decide_True
    by (rewrite elem_of_difference, !elem_of_union, !elem_of_singleton;
        intuition congruence).
  eexists. split; [reflexivity |].
  split; [| split; [| split]];
    try (rewrite !elem_of_difference, !elem_of_union, !elem_of_singleton;
         intuition congruence).
  rewrite decide_False
    by (rewrite !elem_of_difference, !elem_of_union, !elem_of_singleton;
        intuition congruence).
  simpl. split; reflexivity.
Qed.

Lemma decoder_cannot_be_shared_witness :
  exists live3,
    Movie_dtor (fst (Movie_ctor 1%positive 2%positive 3%positive
                       ({[1%positive]} ∪ {[2%positive]})))
               (snd (Movie_ctor 1%positive 2%positive 4%positive
                       (snd (Movie_ctor 1%positive 2%positive 3%positive
                               ({[1%positive]} ∪ {[2%positive]}))))) = Some live3 /\
    (2%positive ∉ live3) /\ (3%positive ∉ live3) /\ (4%positive ∈ live3) /\
    Movie_dtor (fst (Movie_ctor 1%positive 2%positive 4%positive
                       (snd (Movie_ctor 1%positive 2%positive 3%positive
                               ({[1%positive]} ∪ {[2%positive]})))))
               live3 = None /\
    Movie_dtor (fst (Movie_ctor 1%positive 2%positive 3%positive
                       ({[1%positive]} ∪ {[2%positive]})))
               live3 = None.
Proof.
  apply (decoder_cannot_be_shared 1%positive 2%positive 3%positive 4%positive
           ({[1%positive]} ∪ {[2%positive]})).
  - apply elem_of_union. right. apply elem_of_singleton. reflexivity.
  - intros Hin. apply elem_of_union in Hin as [Hin | Hin];
      apply elem_of_singleton in Hin; discriminate Hin.
  - intros Hin. apply elem_of_union in Hin as [Hin | Hin];
      apply elem_of_singleton in Hin; discriminate Hin.
  - discriminate.
Defined.

(** *** Further properties of one update and of the events *)

(** The tick [t] with every event that is not an Escape key-down taken out. *)
Definition without_other_events (t : Tick) : Tick :=
  mkTick (shouldQuit t) (endOfVideo t) (needsUpdate t) (decodeNextFrame t)
         (isLowRes t) (getCurFrame t) (getPalette t)
         (List.filter is_escape (pollEvent t)).

Lemma existsb_filter_is_escape (events : list Event) :
  existsb is_escape (List.filter is_escape events) = existsb is_escape events.
Proof.
  induction events as [| e events IH]; [reflexivity |].
  simpl. destruct (is_escape e) eqn:He; simpl; [rewrite He; reflexivity | exact IH].
Qed.

(** 252 x 129, row [r] filled with the byte [r]; a screen of 252 x 128. *)
Definition broad_frame : Surface.t :=
  Surface.mk 252 129 252
    (concat (map (fun r => replicate 252%nat (Demo.byte_of r)) (seq 0 129))).

Definition broad_screen : Surface.t :=
  Surface.mk 252 128 252 (replicate (252 * 128)%nat Byte.xee).

Section MoreOnUpdate.

Variable render_on_screen : Surface.t -> Z -> nat -> Surface.t -> Surface.t.

(** X18.  For a decoded frame that is not low-res, the colour the subtitle
    renderer is given and the palette entry made yellow are the same index
    [k <= 255]: the update first shows the frame and calls the renderer
    with [k], then installs the decoder's palette and only after that, when
    [k] is not 0, writes the subtitle colour at [k], so that the install
    does not undo it.  With [k = 0] the renderer is given colour 0 and no
    palette entry is changed. *)
Theorem renderer_colour_is_the_palette_entry_written
  (isFirstIntroVideo : bool) (t : Tick) (frame : Surface.t) (s : System) :
  decodeNextFrame t = Some frame ->
  isLowRes t = false ->
  exists k patch,
    (k <= 255)%nat /\
    (patch = [] \/ patch = glitch_calls frame) /\
    update_calls render_on_screen isFirstIntroVideo t s =
    [copyRectToScreen (Surface.getPixels frame) (Surface.pitch frame) 0 0
                      (Surface.w frame) (Surface.h frame);
     subtitle_render frame (getCurFrame t) k] ++ patch ++
    [setPalette (getPalette t) 0 256] ++
    (if (k =? 0)%nat then [] else [setPalette subtitleColor k 1]) ++
    [updateScreen].
Proof.
  intros Hf Hlow. exists (color_key frame).
  exists (if glitch_due isFirstIntroVideo t then glitch_calls frame else []).
  split; [apply (find_unused_spec (scanned frame)) |].
  split; [destruct (glitch_due isFirstIntroVideo t); auto |].
  rewrite update_calls_eq. unfold frame_calls, palette_calls, key_of_tick.
  rewrite Hf, Hlow.
  destruct (color_key frame =? 0)%nat; destruct (glitch_due isFirstIntroVideo t);
    reflexivity.
Qed.

(** X19.  Only an Escape key-down stops the video: every other event
    (other keys, key-up, quit or mouse events) is polled and dropped, so a
    run with those events taken out goes exactly the same way. *)
Theorem only_escape_keydown_matters
  (isFirstIntroVideo : bool) (ticks : list Tick) (s : System) :
  playVideo_loop render_on_screen isFirstIntroVideo
    (map without_other_events ticks) s =
  playVideo_loop render_on_screen isFirstIntroVideo ticks s.
Proof.
  revert s. induction ticks as [| t ticks IH]; intros s; [reflexivity |].
  simpl. rewrite existsb_filter_is_escape.
  destruct (negb (shouldQuit t) && negb (endOfVideo t)); [| reflexivity].
  destruct (existsb is_escape (pollEvent t)); [reflexivity |].
  apply IH.
Qed.

End MoreOnUpdate.

Lemma renderer_colour_is_the_palette_entry_written_witness :
  exists k patch,
    (k <= 255)%nat /\
    (patch = [] \/ patch = glitch_calls Demo.small_frame) /\
    update_calls Demo.no_subtitles false Demo.small_tick
      (Demo.empty_system Demo.small_screen) =
    [copyRectToScreen (Surface.getPixels Demo.small_frame)
                      (Surface.pitch Demo.small_frame) 0 0
                      (Surface.w Demo.small_frame) (Surface.h Demo.small_frame);
     subtitle_render Demo.small_frame (getCurFrame Demo.small_tick) k] ++ patch ++
    [setPalette (getPalette Demo.small_tick) 0 256] ++
    (if (k =? 0)%nat then [] else [setPalette subtitleColor k 1]) ++
    [updateScreen].
Proof.
  apply (renderer_colour_is_the_palette_entry_written Demo.no_subtitles false
           Demo.small_tick Demo.small_frame (Demo.empty_system Demo.small_screen));
    reflexivity.
Defined.

(** X20.  The workaround hides the glitch with the adjacent pixels: on a
    frame at least 252 pixels wide, every pixel of the four patched spans
    shows the frame pixel of the same column in the row directly above or
    directly below, and that pixel lies outside the patched spans. *)
Theorem patch_shows_adjacent_unpatched_pixels (frame scr : Surface.t) :
  252 <= Surface.w frame <= Surface.pitch frame ->
  Surface.w frame <= Surface.pitch scr ->
  Surface.holds_rows frame 129 ->
  Surface.holds_rows scr 128 ->
  forall r x,
    in_patch frame r x ->
    exists r',
      (r' = r - 1 \/ r' = r + 1) /\
      ~ in_patch frame r' x /\
      Surface.at_xy (patched frame scr) x r = Surface.at_xy frame x r'.
Proof.
  intros Hw Hs Hfr Hsc r x Hin.
  destruct (patched_spec frame scr ltac:(lia) Hs Hfr Hsc) as (Hright & Hleft & _).
  unfold in_patch in *.
  destruct Hin as [[[-> | ->] Hx] | [[-> | ->] Hx]].
  - exists 123. split; [left; lia |]. split; [lia |]. apply Hright. exact Hx.
  - exists 126. split; [right; lia |]. split; [lia |]. apply Hright. exact Hx.
  - exists 125. split; [left; lia |]. split; [lia |]. apply Hleft. exact Hx.
  - exists 128. split; [right; lia |]. split; [lia |]. apply Hleft. exact Hx.
Qed.

Lemma patch_shows_adjacent_unpatched_pixels_witness :
  exists r',
    (r' = 126 - 1 \/ r' = 126 + 1) /\
    ~ in_patch broad_frame r' 63 /\
    Surface.at_xy (patched broad_frame broad_screen) 63 126 =
    Surface.at_xy broad_frame 63 r'.
Proof.
  apply (patch_shows_adjacent_unpatched_pixels broad_frame broad_screen).
  - split; by_computation.
  - by_computation.
  - by_computation.
  - by_computation.
  - right. split; [left; reflexivity | split; by_computation].
Defined.

End Movie.
